(** * Music video generator: feature extraction and edit-decision validation

    A shallow embedding of the analysis and validation core of the
    repository:

    - [services/geminiService.ts]        : [createVideoSequence] (the validator)
    - the audio analysis service          : [analyzeEnergy]
    - the video analysis service          : worker code ([applySobel],
      [classifyObjects], the [onmessage] handler) and the in-flight task
      registry of [analyzeVideoContent]
    - [utils/video.ts]                    : [getClipMetadata]

    Numbers.  JavaScript numbers are IEEE doubles.  Where the special values
    decide the behaviour (the validator) they are modelled explicitly
    ([JsNumber.number]: NaN, the two infinities, finite values); finite values
    are exact rationals, which is faithful for the operations used there
    ([Math.abs], [%], comparisons), all of which are exact on doubles.  In the
    audio and video metrics, times and scores are rationals and [Math.sqrt]
    is a parameter.  The sums and quotients that the audio analysis
    accumulates in doubles (window energies, beat intervals and their
    average) go through rounded operations that are parameters too
    ([DoubleArith]). *)

From Stdlib Require Import ZArith QArith Qround Qabs List String Ascii Lia Lqa DecimalString.
From stdpp Require Import base gmap strings list.
From Stdlib Require DecimalZ.
Import ListNotations.
Open Scope string_scope.

(** ** Errors: a thrown [Error] carries its message *)

Inductive result (A : Type) : Type :=
| Ok (a : A)
| Throw (message : string).
Arguments Ok {A} a.
Arguments Throw {A} message.

Definition bind {A B} (r : result A) (k : A -> result B) : result B :=
  match r with
  | Ok a => k a
  | Throw m => Throw m
  end.

(** [s.includes(sub)] *)
Definition includes (s sub : string) : bool :=
  match String.index 0 sub s with
  | Some _ => true
  | None => false
  end.

(** ** JavaScript numbers *)

Module JsNumber.

Inductive number : Type :=
| NaN
| PosInf
| NegInf
| Fin (q : Q).

Definition of_nat (n : nat) : number := Fin (inject_Z (Z.of_nat n)).
Definition zero : number := Fin 0.

(** [Math.abs] *)
Definition Math_abs (x : number) : number :=
  match x with
  | NaN => NaN
  | PosInf | NegInf => PosInf
  | Fin q => Fin (Qabs q)
  end.

(** Truncation towards zero, the integer quotient of [%]. *)
Definition Qtrunc (q : Q) : Z :=
  if Qle_bool 0 q then Qfloor q else Qceiling q.

(** [n % d] (ECMAScript Number::remainder). *)
Definition rem (n d : number) : number :=
  match n, d with
  | NaN, _ | _, NaN => NaN
  | PosInf, _ | NegInf, _ => NaN
  | Fin a, PosInf | Fin a, NegInf => Fin a
  | Fin a, Fin b =>
      if Qeq_bool b 0 then NaN
      else Fin (a - b * inject_Z (Qtrunc (a / b)))
  end.

(** [a <= b] and [a < b]; every comparison with NaN is false. *)
Definition le (a b : number) : bool :=
  match a, b with
  | NaN, _ | _, NaN => false
  | NegInf, _ => true
  | _, PosInf => true
  | PosInf, _ => false
  | _, NegInf => false
  | Fin x, Fin y => Qle_bool x y
  end.

Definition lt (a b : number) : bool :=
  match a, b with
  | NaN, _ | _, NaN => false
  | PosInf, _ => false
  | _, NegInf => false
  | NegInf, _ => true
  | _, PosInf => true
  | Fin x, Fin y => negb (Qle_bool y x)
  end.

Definition is_nan (x : number) : bool :=
  match x with NaN => true | _ => false end.


(** A finite value that is an integer (a usable array index). *)
Definition is_integer (x : number) : bool :=
  match x with
  | Fin q => Qeq_bool q (inject_Z (Qfloor q))
  | _ => false
  end.

End JsNumber.

(** ** Values produced by [JSON.parse] *)

#[warnings="-register-all"]
Inductive json : Type :=
| JNull
| JBool (b : bool)
| JNumber (x : JsNumber.number)
| JString (s : string)
| JArray (items : list json)
| JObject (fields : list (string * json)).

(** [JSON.parse] never yields NaN (a literal such as [1e999] yields
    [Infinity]).  [parsed v] holds of the values it can yield. *)
Fixpoint parsed (v : json) : bool :=
  match v with
  | JNumber x => negb (JsNumber.is_nan x)
  | JArray items => forallb parsed items
  | JObject fields => forallb (fun kv => parsed (snd kv)) fields
  | _ => true
  end.

(** Own property of an object; the first binding of a key is the live one. *)
Fixpoint assoc (k : string) (fields : list (string * json)) : option json :=
  match fields with
  | [] => None
  | (k', v) :: rest => if String.eqb k k' then Some v else assoc k rest
  end.

(** [item?.k]: [None] is [undefined].  [null] short-circuits; primitives and
    arrays have none of the three properties read by the validator. *)
Definition prop (item : json) (k : string) : option json :=
  match item with
  | JObject fields => assoc k fields
  | _ => None
  end.

(** [typeof v] *)
Definition typeof (v : option json) : string :=
  match v with
  | None => "undefined"
  | Some JNull => "object"
  | Some (JBool _) => "boolean"
  | Some (JNumber _) => "number"
  | Some (JString _) => "string"
  | Some (JArray _) => "object"
  | Some (JObject _) => "object"
  end.

(** ['k' in v] for an object [v] *)
Definition has_key (k : string) (v : json) : bool :=
  match prop v k with
  | Some _ => true
  | None => false
  end.

(** ** services/geminiService.ts: createVideoSequence *)

Module GeminiService.
Import JsNumber.

Record EditDecision : Type := {
  clipIndex : number;
  duration : number;
  description : string
}.

(** The callback of [parsedJson.map]: [None] is the [null] that the following
    [filter] removes. *)
Definition repairItem (clipsLength : nat) (item : json) : option EditDecision :=
  match prop item "clipIndex", prop item "duration", prop item "description" with
  | Some (JNumber ci), Some (JNumber du), Some (JString de) =>
      if le du zero then None
      else
        let repairedIndex := rem (Math_abs ci) (of_nat clipsLength) in
        Some {| clipIndex := repairedIndex; duration := du; description := de |}
  | _, _, _ => None
  end.

(** [.map(...).filter(item => item !== null)] *)
Fixpoint mapFilter (clipsLength : nat) (items : list json) : list EditDecision :=
  match items with
  | [] => []
  | item :: rest =>
      match repairItem clipsLength item with
      | Some d => d :: mapFilter clipsLength rest
      | None => mapFilter clipsLength rest
      end
  end.

Definition msg_unexpected_format : string :=
  "The AI returned a response in an unexpected format. This is often a temporary issue, please try generating again.".
Definition msg_not_array : string :=
  "AI response is not a valid array of edit decisions.".
Definition msg_no_sequence : string :=
  "The AI failed to generate a valid video sequence. Please try again with different clips or a clearer description.".
Definition msg_safety : string :=
  "The request was blocked due to safety policies. Please try different clips or a different description.".
Definition msg_generic : string :=
  "The AI was unable to create a video sequence. This could be due to a temporary network issue or an internal error. Please try again.".

(** The array the validator iterates over: a lone object carrying a
    [clipIndex] key is wrapped, anything else that is not an array throws. *)
Definition toArray (parsedJson : json) : result (list json) :=
  match parsedJson with
  | JArray items => Ok items
  | _ =>
      if String.eqb (typeof (Some parsedJson)) "object"
         && negb (match parsedJson with JNull => true | _ => false end)
         && has_key "clipIndex" parsedJson
      then Ok [parsedJson]
      else Throw msg_not_array
  end.

(** The body of the [try] block from [JSON.parse] on.  [response] is the
    outcome of [JSON.parse(text)], [None] when it throws. *)
Definition tryBody (response : option json) (clipsLength : nat)
  : result (list EditDecision) :=
  bind (match response with
        | Some v => Ok v
        | None => Throw msg_unexpected_format
        end) (fun parsedJson =>
  bind (toArray parsedJson) (fun items =>
  let repairedAndValidatedDecisions := mapFilter clipsLength items in
  if Nat.eqb (length repairedAndValidatedDecisions) 0
  then Throw msg_no_sequence
  else Ok repairedAndValidatedDecisions)).

(** The [catch] block. *)
Definition catchBlock {A} (message : string) : result A :=
  if includes message "SAFETY" then Throw msg_safety
  else if includes message "unexpected format" || includes message "valid video sequence"
       then Throw message
       else Throw msg_generic.

Definition createVideoSequence (response : option json) (clipsLength : nat)
  : result (list EditDecision) :=
  match tryBody response clipsLength with
  | Ok ds => Ok ds
  | Throw m => catchBlock m
  end.

(** 0 <= x < N as JavaScript evaluates it *)
Definition inRange (clipsLength : nat) (x : number) : bool :=
  le zero x && lt x (of_nat clipsLength).

End GeminiService.

(** ** Double-precision arithmetic *)

(** The operations [+], [*] and [/] on finite doubles: the exact result
    rounded to a double.  They are parameters, so that what is proved of the
    audio analysis holds whatever the rounding does. *)
Class DoubleArith : Type := {
  fadd : Q -> Q -> Q;
  fmul : Q -> Q -> Q;
  fdiv : Q -> Q -> Q
}.

(** The doubles themselves, for finite values in range: rounding to the
    nearest double, ties to the even mantissa, with the subnormals; overflow
    to infinity is outside this model. *)
Module Binary64.

#[local] Open Scope Q_scope.

(** [2 ^ e] *)
Definition pow2 (e : Z) : Q :=
  if Z.leb 0 e then inject_Z (2 ^ e) else 1 # Z.to_pos (2 ^ (- e)).

(** The binary exponent of a positive rational: [2 ^ k <= a < 2 ^ (k + 1)]. *)
Definition floorLog2 (a : Q) : Z :=
  let n := Qnum a in
  let d := Zpos (Qden a) in
  let k := (Z.log2 n - Z.log2 d)%Z in
  if Qle_bool (pow2 k) a then k else (k - 1)%Z.

Definition roundHalfEven (x : Q) : Z :=
  let f := Qfloor x in
  match Qcompare (x - inject_Z f) (1 # 2) with
  | Lt => f
  | Gt => (f + 1)%Z
  | Eq => if Z.even f then f else (f + 1)%Z
  end.

(** The double nearest to [q]: a 53-bit mantissa at the exponent of [q],
    or at the least exponent for the subnormals. *)
Definition roundDouble (q : Q) : Q :=
  match Qcompare q 0 with
  | Eq => 0
  | c =>
      let a := Qabs q in
      let e := Z.max (floorLog2 a - 52) (-1074) in
      let m := inject_Z (roundHalfEven (a * pow2 (- e))) * pow2 e in
      Qred (match c with Lt => - m | _ => m end)
  end.

(** [Math.sqrt] on a double: the double nearest to the square root (the
    root of a double is never half-way between two doubles). *)
Definition sqrtDouble (a : Q) : Q :=
  match Qcompare a 0 with
  | Gt =>
      let e := (floorLog2 a / 2 - 52)%Z in
      let t := Z.sqrt (Qfloor (4 * (a * pow2 (- (2 * e))))) in
      Qred (inject_Z ((t + 1) / 2) * pow2 e)
  | _ => 0
  end.

Definition binary64 : DoubleArith :=
  {| fadd := fun a b => roundDouble (a + b);
     fmul := fun a b => roundDouble (a * b);
     fdiv := fun a b => roundDouble (a / b) |}.

End Binary64.

(** ** The audio analysis service: analyzeEnergy *)

Module AudioAnalysis.

Inductive Intensity : Type := low | medium | high.

Definition Intensity_eqb (a b : Intensity) : bool :=
  match a, b with
  | low, low | medium, medium | high, high => true
  | _, _ => false
  end.

Record EnergySegment : Type := {
  startTime : Q;
  endTime : Q;
  intensity : Intensity
}.

(** An [AudioBuffer]: the samples of channel 0 and the sample rate (an
    integral number of samples per second). *)
Record AudioBuffer : Type := {
  channelData : list Q;
  sampleRate : nat
}.

(** [i / sampleRate] for a sample index [i] *)
Definition seconds (i sampleRate : nat) : Q :=
  (inject_Z (Z.of_nat i) / inject_Z (Z.of_nat sampleRate))%Q.

(** [buffer.duration], which the Web Audio API defines as
    [length / sampleRate]. *)
Definition bufferDuration (buffer : AudioBuffer) : Q :=
  seconds (length (channelData buffer)) (sampleRate buffer).

(** [data.slice(i, j)] *)
Definition slice {A} (i j : nat) (data : list A) : list A :=
  firstn (j - i)%nat (skipn i data).

(** The inner loop: the sum of the squared samples of a window, each
    [sumOfSquares += segment[j] * segment[j]] rounded. *)
Definition sumOfSquares `{DoubleArith} (segment : list Q) : Q :=
  fold_left (fun acc x => fadd acc (fmul x x)) segment 0%Q.

(** [[...energyLevels].sort((a, b) => a - b)] *)
Fixpoint insertSorted (x : Q) (l : list Q) : list Q :=
  match l with
  | [] => [x]
  | y :: r => if Qle_bool x y then x :: y :: r else y :: insertSorted x r
  end.

Fixpoint sortAscending (l : list Q) : list Q :=
  match l with
  | [] => []
  | x :: r => insertSorted x (sortAscending r)
  end.

(** [energy >= threshold]; a comparison with [undefined] is false. *)
Definition geThreshold (energy : Q) (threshold : option Q) : bool :=
  match threshold with
  | Some t => Qle_bool t energy
  | None => false
  end.

(** [Math.floor(n * 0.33)] and [Math.floor(n * 0.66)] for an array length [n] *)
Definition lowIndex (n : nat) : nat := ((n * 33) / 100)%nat.
Definition highIndex (n : nat) : nat := ((n * 66) / 100)%nat.

Definition withIntensity (segment : EnergySegment) (i : Intensity) : EnergySegment :=
  {| startTime := startTime segment; endTime := endTime segment; intensity := i |}.

Definition withEndTime (segment : EnergySegment) (t : Q) : EnergySegment :=
  {| startTime := startTime segment; endTime := t; intensity := intensity segment |}.

(** The merge loop: [rest] are the classified segments from index [i] on. *)
Fixpoint mergeLoop (rest : list EnergySegment) (currentSegment : EnergySegment)
    (mergedSegments : list EnergySegment) : list EnergySegment :=
  match rest with
  | [] => mergedSegments ++ [currentSegment]
  | nextSegment :: rest' =>
      if Intensity_eqb (intensity nextSegment) (intensity currentSegment)
      then mergeLoop rest' (withEndTime currentSegment (endTime nextSegment)) mergedSegments
      else mergeLoop rest' nextSegment (mergedSegments ++ [currentSegment])
  end.

Section Energy.

Context {arith : DoubleArith}.

(** [Math.sqrt] *)
Variable Math_sqrt : Q -> Q.

(** The window loop [for (i = 0; i < data.length; i += samplesPerSegment)],
    from sample index [i] on; each iteration pushes one energy level and one
    placeholder segment.  [fuel] bounds the number of iterations. *)
Fixpoint windowLoop (fuel : nat) (data : list Q) (sampleRate : nat) (i : nat)
  : list (Q * EnergySegment) :=
  match fuel with
  | O => []
  | S fuel' =>
      if Nat.ltb i (length data) then
        let samplesPerSegment := (sampleRate * 1)%nat in
        let segmentEnd := Nat.min (i + samplesPerSegment)%nat (length data) in
        let segment := slice i segmentEnd data in
        let rms := Math_sqrt (fdiv (sumOfSquares segment)
                                   (inject_Z (Z.of_nat (length segment)))) in
        (rms, {| startTime := seconds i sampleRate;
                 endTime := seconds segmentEnd sampleRate;
                 intensity := low |})
          :: windowLoop fuel' data sampleRate (i + samplesPerSegment)%nat
      else []
  end.

Definition energyLevelsOf (buffer : AudioBuffer) : list Q :=
  let data := channelData buffer in
  map fst (windowLoop (length data) data (sampleRate buffer) 0).

Definition placeholderSegments (buffer : AudioBuffer) : list EnergySegment :=
  let data := channelData buffer in
  map snd (windowLoop (length data) data (sampleRate buffer) 0).

(** The callback of [segments.map((segment, index) => ...)] *)
Definition classify (energyLevels : list Q) (lowThreshold highThreshold : option Q)
    (index : nat) (segment : EnergySegment) : EnergySegment :=
  match energyLevels !! index with
  | Some energy =>
      if geThreshold energy highThreshold then withIntensity segment high
      else if geThreshold energy lowThreshold then withIntensity segment medium
      else withIntensity segment low
  | None => withIntensity segment low
  end.

Definition analyzeEnergy (buffer : AudioBuffer) : list EnergySegment :=
  let energyLevels := energyLevelsOf buffer in
  let segments := placeholderSegments buffer in
  if Nat.eqb (length energyLevels) 0 then []
  else
    let sortedEnergy := sortAscending energyLevels in
    let lowThreshold := sortedEnergy !! lowIndex (length sortedEnergy) in
    let highThreshold := sortedEnergy !! highIndex (length sortedEnergy) in
    let classifiedSegments := imap (classify energyLevels lowThreshold highThreshold) segments in
    match classifiedSegments with
    | [] => []
    | first :: rest => mergeLoop rest first []
    end.

End Energy.

End AudioAnalysis.

(** ** Files *)

Record File : Type := {
  name : string;
  lastModified : Z;
  size : Z
}.

(** Template-literal conversion of an integral number to its decimal
    string (timestamps and byte sizes are far below the 1e21 where
    JavaScript switches to exponent notation). *)
Definition numberToString (z : Z) : string :=
  NilZero.string_of_int (Z.to_int z).

(** ** The video analysis service *)

Module VideoAnalysisService.

(** *** Worker code *)

Record ImageData : Type := {
  width : nat;
  height : nat;
  data : list Z          (* RGBA bytes, row-major *)
}.

Record DetectedObject : Type := {
  class : string;
  score : Q
}.

Inductive DominantCategory : Type := people | nature | urban | action | other.
Inductive MotionLevel : Type := motion_static | motion_low | motion_medium | motion_high.

Record VideoAnalysis : Type := {
  hasFaces : bool;
  detectedObjects : list DetectedObject;
  dominantCategory : DominantCategory;
  motionLevel : MotionLevel;
  avgBrightness : Q;
  visualComplexity : Q
}.

(** The pixels of an RGBA buffer, [(r, g, b)] for each group of four bytes. *)
Fixpoint pixels (data : list Z) : list (Z * Z * Z) :=
  match data with
  | r :: g :: b :: _ :: rest => (r, g, b) :: pixels rest
  | _ => []
  end.

Definition analyzeBrightness (imageData : ImageData) : Q :=
  let data := data imageData in
  let totalBrightness :=
    fold_left (fun acc p => let '(r, g, b) := p in acc + inject_Z (r + g + b) / 3)%Q
              (pixels data) 0%Q in
  ((totalBrightness / (inject_Z (Z.of_nat (length data)) / 4)) / 255)%Q.

Section Sobel.

(** The byte stored in the [Uint8ClampedArray] for
    [0.299 * r + 0.587 * g + 0.114 * b]. *)
Variable luminance : Z -> Z -> Z -> Z.

Definition grayscaleOf (imageData : ImageData) : list Z :=
  map (fun p => let '(r, g, b) := p in luminance r g b) (pixels (data imageData)).

(** The two Sobel responses at index [i] of a [width]-wide grayscale image. *)
Definition sobelGx (grayscale : list Z) (width i : nat) : Z :=
  let px k := nth k grayscale 0%Z in
  ((px (i - width - 1)%nat - px (i - width + 1)%nat)
   + 2 * (px (i - 1)%nat - px (i + 1)%nat)
   + (px (i + width - 1)%nat - px (i + width + 1)%nat))%Z.

Definition sobelGy (grayscale : list Z) (width i : nat) : Z :=
  let px k := nth k grayscale 0%Z in
  ((px (i - width - 1)%nat - px (i + width - 1)%nat)
   + 2 * (px (i - width)%nat - px (i + width)%nat)
   + (px (i - width + 1)%nat - px (i + width + 1)%nat))%Z.

(** [Math.sqrt(gx * gx + gy * gy) > 128]: the argument is an exact integer
    and [Math.sqrt] is monotone with [Math.sqrt(16384) = 128], so the test
    is [gx * gx + gy * gy > 16384]. *)
Definition isEdge (grayscale : list Z) (width x y : nat) : bool :=
  let i := (y * width + x)%nat in
  let gx := sobelGx grayscale width i in
  let gy := sobelGy grayscale width i in
  Z.ltb 16384 (gx * gx + gy * gy).

(** The interior pixels visited by the two nested loops. *)
Definition interior (width height : nat) : list (nat * nat) :=
  flat_map (fun y => map (fun x => (x, y)) (seq 1 (width - 2)))
           (seq 1 (height - 2)).

Definition edgePixelsOf (imageData : ImageData) : nat :=
  let grayscale := grayscaleOf imageData in
  length (filter (fun xy => isEdge grayscale (width imageData) (fst xy) (snd xy) = true)
                 (interior (width imageData) (height imageData))).

Definition applySobel (imageData : ImageData) : Q :=
  (inject_Z (Z.of_nat (edgePixelsOf imageData))
   / inject_Z (Z.of_nat (width imageData * height imageData)))%Q.

End Sobel.

(** One pass of the loop body of [calculateMotion] at byte offset [i]: the
    summed channel differences of the pixel, [None] (NaN) when a byte read
    is [undefined]. *)
Definition pixelDifference (data1 data2 : list Z) (i : nat) : option Z :=
  match data1 !! i, data1 !! (i + 1)%nat, data1 !! (i + 2)%nat,
        data2 !! i, data2 !! (i + 1)%nat, data2 !! (i + 2)%nat with
  | Some r1, Some g1, Some b1, Some r2, Some g2, Some b2 =>
      Some (Z.abs (r1 - r2) + Z.abs (g1 - g2) + Z.abs (b1 - b2))%Z
  | _, _, _, _, _, _ => None
  end.

(** The loop [for (i = 0; i < data1.length; i += 4)] from offset [i] on;
    [diff] is [None] once it is NaN. *)
Fixpoint motionLoop (fuel : nat) (data1 data2 : list Z) (i : nat) (diff : option Z)
  : option Z :=
  match fuel with
  | O => diff
  | S fuel' =>
      if Nat.ltb i (length data1) then
        let diff' :=
          match diff, pixelDifference data1 data2 i with
          | Some d, Some t => Some (d + t)%Z
          | _, _ => None
          end in
        motionLoop fuel' data1 data2 (i + 4)%nat diff'
      else diff
  end.

Definition calculateMotion (frame1 frame2 : ImageData) : MotionLevel :=
  let data1 := data frame1 in
  let data2 := data frame2 in
  match motionLoop (length data1) data1 data2 0 (Some 0%Z) with
  | None => motion_static          (* every comparison with NaN is false *)
  | Some diff =>
      let motionScore :=
        (inject_Z diff / inject_Z (Z.of_nat (length data1) * 3 * 255))%Q in
      if negb (Qle_bool motionScore (1 # 10)) then motion_high
      else if negb (Qle_bool motionScore (3 # 100)) then motion_medium
      else if negb (Qle_bool motionScore (5 # 1000)) then motion_low
      else motion_static
  end.

Definition classifyObjects (objects : list DetectedObject) : DominantCategory :=
  let classes : gset string := list_to_set (map class objects) in
  let has (c : string) := bool_decide (c ∈ classes) in
  if has "person" then people
  else if has "car" || has "bus" || has "traffic light" then urban
  else if has "sports ball" || has "skateboard" || has "surfboard" then action
  else if has "bird" || has "cat" || has "dog" || has "tree" then nature
  else other.

(** What the handler obtains from the browser and the models, each step
    of which may throw. *)
Record WorkerEnv : Type := {
  loadModels : result unit;
  (* the frames at the sampled times, of which there is at least one *)
  frameDatas : result (ImageData * list ImageData);
  detect : ImageData -> result (list DetectedObject);
  estimateFaces : ImageData -> result nat
}.

Record WorkerMessage : Type := {
  msgFileId : string;
  success : bool;
  analysis : option VideoAnalysis;
  error : option string
}.

Section Worker.

Variable luminance : Z -> Z -> Z -> Z.

(** The frame metrics declared in the worker's global scope, by name.
    Calling a name that is not declared throws a [ReferenceError]. *)
Definition globalMetric (f : string) : result (ImageData -> Q) :=
  if String.eqb f "analyzeBrightness" then Ok analyzeBrightness
  else if String.eqb f "applySobel" then Ok (applySobel luminance)
  else Throw (f ++ " is not defined").

Definition callMetric (f : string) (imageData : ImageData) : result Q :=
  bind (globalMetric f) (fun g => Ok (g imageData)).

(** [frameDatas.reduce((sum, fd) => sum + analyzeBrightness(fd), 0)] *)
Fixpoint sumBrightness (frames : list ImageData) (sum : Q) : result Q :=
  match frames with
  | [] => Ok sum
  | fd :: rest =>
      bind (callMetric "analyzeBrightness" fd) (fun b => sumBrightness rest (sum + b)%Q)
  end.

(** The [try] block of [self.onmessage]. *)
Definition analyzeFrames (env : WorkerEnv) : result VideoAnalysis :=
  bind (loadModels env) (fun _ =>
  bind (frameDatas env) (fun '(firstFrame, moreFrames) =>
  let frameDatas := firstFrame :: moreFrames in
  let centralFrame := nth (length frameDatas / 2)%nat frameDatas firstFrame in
  bind (detect env centralFrame) (fun objectPredictions =>
  bind (estimateFaces env centralFrame) (fun facePredictions =>
  let detectedObjects := objectPredictions in
  bind (sumBrightness frameDatas 0%Q) (fun total =>
  let avgBrightness := (total / inject_Z (Z.of_nat (length frameDatas)))%Q in
  bind (callMetric "analyzeSobel" centralFrame) (fun visualComplexity =>
  let motionLevel :=
    match frameDatas, last frameDatas with
    | first :: _ :: _, Some final => calculateMotion first final
    | _, _ => motion_static
    end in
  Ok {| hasFaces := Nat.ltb 0 facePredictions;
        detectedObjects := detectedObjects;
        dominantCategory := classifyObjects detectedObjects;
        motionLevel := motionLevel;
        avgBrightness := avgBrightness;
        visualComplexity := visualComplexity |})))))).

(** [self.onmessage]: the message posted back to the main thread. *)
Definition onmessage (env : WorkerEnv) (fileId : string) : WorkerMessage :=
  match analyzeFrames env with
  | Ok analysisResult =>
      {| msgFileId := fileId; success := true;
         analysis := Some analysisResult; error := None |}
  | Throw message =>
      {| msgFileId := fileId; success := false;
         analysis := None; error := Some message |}
  end.

End Worker.

(** *** Main thread: the in-flight registry *)

(** The promise returned by a call: settled at once, or pending with its
    [resolve]/[reject] pair registered under the given handle. *)
Inductive Promise : Type :=
| Pending (handle : nat)
| RejectedWith (message : string).

Inductive Settlement : Type :=
| Resolved (analysis : option VideoAnalysis)
| Rejected (message : option string).

Record State : Type := {
  worker : bool;                          (* [worker !== null] *)
  runningTasks : gmap string nat;         (* fileId -> handle of the pending promise *)
  posted : list (File * string);          (* messages posted to the worker, oldest first *)
  settled : list (nat * Settlement);      (* promises settled by the worker's replies *)
  nextHandle : nat
}.

Definition initialState : State :=
  {| worker := false; runningTasks := ∅; posted := []; settled := []; nextHandle := 0 |}.

(** [getWorker]; [canCreate] tells whether [new Worker(...)] succeeds. *)
Definition getWorker (canCreate : bool) (st : State) : bool * State :=
  if worker st then (true, st)
  else
    let st' := {| worker := canCreate; runningTasks := runningTasks st;
                  posted := posted st; settled := settled st;
                  nextHandle := nextHandle st |} in
    (canCreate, st').

Definition fileIdOf (file : File) : string :=
  name file ++ "-" ++ numberToString (lastModified file) ++ "-" ++ numberToString (size file).

Definition msg_unavailable : string := "Video analysis worker is not available.".
Definition msg_in_progress : string := "This clip is already being analyzed.".

Definition analyzeVideoContent (canCreate : bool) (file : File) (st : State)
  : Promise * State :=
  let '(workerInstance, st1) := getWorker canCreate st in
  if negb workerInstance then (RejectedWith msg_unavailable, st1)
  else
    let fileId := fileIdOf file in
    if bool_decide (is_Some (runningTasks st1 !! fileId))
    then (RejectedWith msg_in_progress, st1)
    else
      let handle := nextHandle st1 in
      (Pending handle,
       {| worker := worker st1;
          runningTasks := <[fileId := handle]> (runningTasks st1);
          posted := posted st1 ++ [(file, fileId)];
          settled := settled st1;
          nextHandle := S handle |}).

(** [worker.onmessage] on the main thread. *)
Definition workerOnMessage (event : WorkerMessage) (st : State) : State :=
  match runningTasks st !! msgFileId event with
  | Some handle =>
      let outcome :=
        if success event then Resolved (analysis event)
        else Rejected (error event) in
      {| worker := worker st;
         runningTasks := delete (msgFileId event) (runningTasks st);
         posted := posted st;
         settled := settled st ++ [(handle, outcome)];
         nextHandle := nextHandle st |}
  | None => st
  end.

End VideoAnalysisService.

(** ** utils/video.ts: getClipMetadata *)

Module VideoUtils.

Record Resolution : Type := { resWidth : nat; resHeight : nat }.

Record ClipMetadata : Type := {
  id : string;
  file : File;
  clipName : string;
  clipSize : Z;
  clipDuration : Q;
  resolution : Resolution;
  thumbnail : string
}.

(** What the [video] element reports once its metadata is loaded. *)
Record VideoElement : Type := {
  videoDuration : Q;
  videoWidth : nat;
  videoHeight : nat
}.

(** [getClipMetadata]: [video] is [None] when [onerror] fires, and
    [thumbnail] is the outcome of [extractFrame(file, 0.1)]. *)
Definition getClipMetadata (f : File) (video : option VideoElement)
    (thumbnail : result string) : result ClipMetadata :=
  match video with
  | None =>
      Throw ("Failed to load video metadata for " ++ name f
             ++ ". It might be a corrupted file.")
  | Some video =>
      bind thumbnail (fun thumbnail =>
      Ok {| id := name f ++ "-" ++ numberToString (lastModified f);
            file := f;
            clipName := name f;
            clipSize := size f;
            clipDuration := videoDuration video;
            resolution := {| resWidth := videoWidth video; resHeight := videoHeight video |};
            thumbnail := thumbnail |})
  end.

End VideoUtils.

(** ** The audio analysis service: analyzeBeats *)

Module AudioBeats.
Import AudioAnalysis.

Record Beat : Type := {
  timestamp : Q;
  confidence : Q
}.

Record BeatAnalysis : Type := {
  bpm : Z;
  beats : list Beat
}.

(** The amplitude threshold 0.6.  No double lies between the double 0.6
    and the rational 6/10, so [x > 0.6] on samples is the rational test. *)
Definition threshold : Q := 6 # 10.

(** [data[i] > threshold]; a comparison with [undefined] is false. *)
Definition exceeds (sample : option Q) : bool :=
  match sample with
  | Some x => negb (Qle_bool x threshold)
  | None => false
  end.

(** [Math.floor(sampleRate * 0.1)] for an integral sample rate *)
Definition skipSamples (sampleRate : nat) : nat := (sampleRate / 10)%nat.

(** The scan [for (i = 0; i < data.length; i++)] from index [i] on: a peak
    pushes [i] and adds the skip to [i] before the loop's own increment. *)
Fixpoint peakLoop (fuel : nat) (data : list Q) (sampleRate : nat) (i : nat)
  : list nat :=
  match fuel with
  | O => []
  | S fuel' =>
      if Nat.ltb i (length data) then
        if exceeds (data !! i)
        then i :: peakLoop fuel' data sampleRate (i + skipSamples sampleRate + 1)%nat
        else peakLoop fuel' data sampleRate (i + 1)%nat
      else []
  end.

Definition peaksOf (renderedBuffer : AudioBuffer) : list nat :=
  let data := channelData renderedBuffer in
  peakLoop (length data) data (sampleRate renderedBuffer) 0.

(** [(peaks[i] - peaks[i - 1]) / sampleRate] for [i] from 1 on *)
Fixpoint intervalsOf `{DoubleArith} (sampleRate : nat) (peaks : list nat) : list Q :=
  match peaks with
  | previous :: ((current :: _) as rest) =>
      fdiv (inject_Z (Z.of_nat current - Z.of_nat previous))
           (inject_Z (Z.of_nat sampleRate))
        :: intervalsOf sampleRate rest
  | _ => []
  end.

(** [Math.round]: the nearest integer, halves upwards *)
Definition Math_round (q : Q) : Z := Qfloor (q + (1 # 2)).

(** The callback of [startRendering().then(...)], on the rendered
    (low-pass filtered) buffer. *)
Definition analyzeBeats `{DoubleArith} (renderedBuffer : AudioBuffer) : BeatAnalysis :=
  let sampleRate := sampleRate renderedBuffer in
  let peaks := peaksOf renderedBuffer in
  if Nat.ltb (length peaks) 2 then {| bpm := 120; beats := [] |}
  else
    let intervals := intervalsOf sampleRate peaks in
    let averageInterval :=
      fdiv (fold_left fadd intervals 0%Q) (inject_Z (Z.of_nat (length intervals))) in
    let bpm := Math_round (fdiv 60 averageInterval) in
    let beats :=
      map (fun peakIndex => {| timestamp := seconds peakIndex sampleRate;
                               confidence := 1 |}) peaks in
    {| bpm := bpm; beats := beats |}.

End AudioBeats.

(** ** The video worker: sample times *)

Module FrameSampling.

(** [Math.min] on two finite numbers *)
Definition Math_min (a b : Q) : Q := if Qle_bool a b then a else b.

(** The times at which [self.onmessage] samples a clip of the given
    duration. *)
Definition frameTimesOf (duration : Q) : list Q :=
  let frameTimes :=
    List.filter (fun t => negb (Qle_bool t (1 # 10))
                          && negb (Qle_bool (duration - (1 # 10)) t))
                [(2 # 10) * duration; (5 # 10) * duration; (8 # 10) * duration]%Q in
  if Nat.eqb (length frameTimes) 0
  then (frameTimes ++ [Math_min (2 # 10) (duration / 2)])%list
  else frameTimes.

End FrameSampling.

(** ** Arrays and insertion-ordered maps *)

(** [array[x]] for a number [x]: the element at [x] when [x] is an integer
    index inside the array, [undefined] otherwise. *)
Definition arrayGet {A} (array : list A) (x : JsNumber.number) : option A :=
  match x with
  | JsNumber.Fin q =>
      if Qeq_bool q (inject_Z (Qfloor q)) && Qle_bool 0 q
      then array !! Z.to_nat (Qfloor q)
      else None
  | _ => None
  end.

(** A [Map] with string keys, as its entries in insertion order:
    [map.set(k, v)] overwrites in place or appends. *)
Fixpoint mapSet {V} (k : string) (v : V) (m : list (string * V)) : list (string * V) :=
  match m with
  | [] => [(k, v)]
  | (k', v') :: rest =>
      if String.eqb k k' then (k, v) :: rest else (k', v') :: mapSet k v rest
  end.

(** [new Map(entries)] *)
Definition mapFromEntries {V} (entries : list (string * V)) : list (string * V) :=
  fold_left (fun m kv => mapSet (fst kv) (snd kv) m) entries [].

(** [map.get(k)] *)
Fixpoint mapGet {V} (k : string) (m : list (string * V)) : option V :=
  match m with
  | [] => None
  | (k', v) :: rest => if String.eqb k k' then Some v else mapGet k rest
  end.

(** ** The application: the thumbnail of a generated video *)

Module App.
Import JsNumber GeminiService VideoUtils.

(** The engine's [TypeError] for [undefined.thumbnail]. *)
Definition msg_undefined_thumbnail : string :=
  "Cannot read properties of undefined (reading 'thumbnail')".

(** The thumbnail chosen by [handleVideosSubmit] once the edit decision
    list is there. *)
Definition chooseThumbnail (selectedClipsMetadata : list ClipMetadata)
    (editDecisionList : list EditDecision) : result string :=
  match selectedClipsMetadata with
  | [] => Ok ""
  | firstClip :: _ =>
      match editDecisionList with
      | [] => Ok (thumbnail firstClip)
      | firstDecision :: _ =>
          let firstClipIndex := clipIndex firstDecision in
          if le zero firstClipIndex
             && lt firstClipIndex (of_nat (length selectedClipsMetadata))
          then
            match arrayGet selectedClipsMetadata firstClipIndex with
            | Some clip => Ok (thumbnail clip)
            | None => Throw msg_undefined_thumbnail
            end
          else Ok (thumbnail firstClip)
      end
  end.

(** [handleVideosSubmit] up to the thumbnail: the sequence is generated for
    the selected clips, then the thumbnail is chosen. *)
Definition generateThumbnail (response : option json)
    (selectedClipsMetadata : list ClipMetadata) : result string :=
  bind (createVideoSequence response (length selectedClipsMetadata))
       (chooseThumbnail selectedClipsMetadata).

End App.

(** ** The export service: inputs and stream indices of exportVideo *)

Module VideoExport.
Import JsNumber GeminiService.

(** [[...new Map(videoFiles.map(item => [item.name, item])).values()]] *)
Definition uniqueVideoFilesOf (videoFiles : list File) : list File :=
  map snd (mapFromEntries (map (fun item => (name item, item)) videoFiles)).

(** [new Map(uniqueVideoFiles.map((file, index) => [file.name, index]))] *)
Definition fileNameToIndexMapOf (uniqueVideoFiles : list File) : list (string * nat) :=
  mapFromEntries (imap (fun index file => (name file, index)) uniqueVideoFiles).

(** The [-i] arguments: the audio first, then each unique video file. *)
Definition inputsOf (audioFile : File) (uniqueVideoFiles : list File) : list string :=
  (["-i"; name audioFile]
   ++ flat_map (fun file => ["-i"; name file]) uniqueVideoFiles)%list.

Definition msg_undefined_name : string :=
  "Cannot read properties of undefined (reading 'name')".

(** [fileNameToIndexMap.get(originalFile.name)! + 1] for a decision;
    [None] stands for the NaN of [undefined + 1]. *)
Definition videoStreamIndexOf (videoFiles : list File) (decision : EditDecision)
  : result (option nat) :=
  match arrayGet videoFiles (clipIndex decision) with
  | None => Throw msg_undefined_name
  | Some originalFile =>
      Ok (option_map (fun index => (index + 1)%nat)
            (mapGet (name originalFile)
                    (fileNameToIndexMapOf (uniqueVideoFilesOf videoFiles))))
  end.

End VideoExport.

(** * Vocabulary of the properties *)

Section ValidatorVocabulary.
Import JsNumber GeminiService.

(** A well-formed raw entry. *)
Definition rawEntry (ci du : number) (de : string) : json :=
  JObject [("clipIndex", JNumber ci); ("duration", JNumber du);
           ("description", JString de)].

(** The entries the validator iterates over. *)
Definition entriesOf (response : json) : list json :=
  match response with
  | JArray items => items
  | v => [v]
  end.

(** An entry the structural checks reject: [clipIndex] is not a number,
    [duration] is not a number or is [<= 0], or [description] is not a
    string. *)
Definition discardable (item : json) : Prop :=
  typeof (prop item "clipIndex") <> "number"
  \/ typeof (prop item "duration") <> "number"
  \/ (exists du, prop item "duration" = Some (JNumber du) /\ le du zero = true)
  \/ typeof (prop item "description") <> "string".

End ValidatorVocabulary.

Section EnergyVocabulary.
Import AudioAnalysis.

(** [chained s l e]: the segments of [l] follow one another without gap
    from time [s] to time [e]. *)
Fixpoint chained (s : Q) (l : list EnergySegment) (e : Q) : Prop :=
  match l with
  | [] => s = e
  | x :: r => startTime x = s /\ chained (endTime x) r e
  end.

(** No two neighbours of a list of labels are equal. *)
Fixpoint alternating (l : list Intensity) : Prop :=
  match l with
  | a :: (b :: _) as r => a <> b /\ alternating r
  | _ => True
  end.

(** Concrete audio buffers.  The identity agrees with the square root on
    the window energies 0 and 1 that occur in them. *)
Definition sqrtOnUnit (q : Q) : Q := q.

(** Two windows with the same samples in another order: equal mean
    squares, but the rounded sums differ. *)
Definition reorderedBuffer : AudioBuffer :=
  {| channelData := [1; 9537299 # 268435456; 9537299 # 268435456;
                     9537299 # 268435456; 9537299 # 268435456; 1]%Q;
     sampleRate := 3 |}.

(** A rendered buffer at rate 3 with peaks at the samples 0, 2 and 16. *)
Definition threePeakBuffer : AudioBuffer :=
  {| channelData := [1; 0; 1; 0; 0; 0; 0; 0; 0; 0; 0; 0; 0; 0; 0; 0; 1]%Q;
     sampleRate := 3 |}.

(** Exact arithmetic, for the examples.  It is what the doubles compute as
    long as every intermediate result is a double: the window energies of
    the two buffers below are sums and means of 0s and 1s.  The beat
    examples read peaks and timestamps only. *)
Definition exactArith : DoubleArith :=
  {| fadd := Qplus; fmul := Qmult; fdiv := Qdiv |}.

Definition steppedBuffer : AudioBuffer :=
  {| channelData := [0; 0; 1; 1; 1; 1; 0]%Q;
     sampleRate := 2 |}.

Definition silentBuffer : AudioBuffer :=
  {| channelData := [0; 0; 0; 0; 0]%Q;
     sampleRate := 2 |}.

End EnergyVocabulary.

Section VideoVocabulary.
Import VideoAnalysisService VideoUtils.

Definition grayPixel (v : Z) : list Z := [v; v; v; 255%Z].

(** A 3x3 frame with a vertical edge. *)
Definition edgeFrame : ImageData :=
  {| width := 3; height := 3;
     data := (grayPixel 0 ++ grayPixel 0 ++ grayPixel 255
              ++ grayPixel 0 ++ grayPixel 0 ++ grayPixel 255
              ++ grayPixel 0 ++ grayPixel 0 ++ grayPixel 255)%list |}.

Definition workingEnv : WorkerEnv :=
  {| loadModels := Ok tt;
     frameDatas := Ok (edgeFrame, []);
     detect := fun _ => Ok [{| class := "person"; score := 9 # 10 |}];
     estimateFaces := fun _ => Ok 1%nat |}.

(** [labelled objects c]: some detection carries the class label [c]. *)
Definition labelled (objects : list DetectedObject) (c : string) : Prop :=
  In c (map class objects).

Definition urbanLabel (objects : list DetectedObject) : Prop :=
  labelled objects "car" \/ labelled objects "bus" \/ labelled objects "traffic light".

Definition actionLabel (objects : list DetectedObject) : Prop :=
  labelled objects "sports ball" \/ labelled objects "skateboard"
  \/ labelled objects "surfboard".

Definition natureLabel (objects : list DetectedObject) : Prop :=
  labelled objects "bird" \/ labelled objects "cat" \/ labelled objects "dog"
  \/ labelled objects "tree".

(** The states of the main thread: calls of [analyzeVideoContent] and
    replies of the worker, from the initial state on. *)
Inductive reachable : State -> Prop :=
| reach_init : reachable initialState
| reach_submit (canCreate : bool) (f : File) (st : State) :
    reachable st -> reachable (snd (analyzeVideoContent canCreate f st))
| reach_reply (event : WorkerMessage) (st : State) :
    reachable st -> reachable (workerOnMessage event st).

Definition clipFile : File :=
  {| name := "clip.mp4"; lastModified := 1700000000000; size := 1000 |}.

Definition smallClip : File :=
  {| name := "clip.mp4"; lastModified := 1700000000000; size := 1000 |}.
Definition largeClip : File :=
  {| name := "clip.mp4"; lastModified := 1700000000000; size := 2000 |}.
Definition someVideo : VideoElement :=
  {| videoDuration := 12; videoWidth := 1920; videoHeight := 1080 |}.

End VideoVocabulary.

Section RegistryVocabulary.
Import VideoAnalysisService.

(** The handles of the state: those in flight are below [nextHandle] and
    belong to one key each; those settled are below [nextHandle], settled
    once, and no longer in flight. *)
Definition handlesConsistent (st : State) : Prop :=
  (forall k h, runningTasks st !! k = Some h -> (h < nextHandle st)%nat)
  /\ (forall k1 k2 h, runningTasks st !! k1 = Some h ->
                      runningTasks st !! k2 = Some h -> k1 = k2)
  /\ NoDup (map fst (settled st))
  /\ (forall h, In h (map fst (settled st)) ->
                (h < nextHandle st)%nat
                /\ forall k, runningTasks st !! k <> Some h).

End RegistryVocabulary.

Section BeatVocabulary.

(** [spaced gap l]: each index of [l] is more than [gap] above the one
    before it. *)
Fixpoint spaced (gap : nat) (l : list nat) : Prop :=
  match l with
  | a :: ((b :: _) as rest) => (a + gap < b)%nat /\ spaced gap rest
  | _ => True
  end.

Definition clickBuffer : AudioAnalysis.AudioBuffer :=
  {| AudioAnalysis.channelData := [0; 1; 1; 0; 0; 1; 0; 0; 0; 1; 1]%Q;
     AudioAnalysis.sampleRate := 20 |}.

End BeatVocabulary.

Section KeyVocabulary.

(** [noDash s]: the string has no ["-"]. *)
Fixpoint noDash (s : string) : Prop :=
  match s with
  | EmptyString => True
  | String c rest => c <> "-"%char /\ noDash rest
  end.

End KeyVocabulary.

Section CallerVocabulary.
Import VideoAnalysisService VideoUtils.

Definition failureReply : WorkerMessage :=
  {| msgFileId := fileIdOf clipFile; success := false; analysis := None;
     error := Some "analyzeSobel is not defined" |}.

Definition clipWithThumbnail (n t : string) : ClipMetadata :=
  {| id := n ++ "-0";
     file := {| name := n; lastModified := 0; size := 1 |};
     clipName := n; clipSize := 1; clipDuration := 4;
     resolution := {| resWidth := 16; resHeight := 9 |};
     thumbnail := t |}.

Definition twoClips : list ClipMetadata :=
  [clipWithThumbnail "a.mp4" "thumbA"; clipWithThumbnail "b.mp4" "thumbB"].

Definition namedFile (n : string) (s : Z) : File :=
  {| name := n; lastModified := 0; size := s |}.

Definition submittedFiles : list File :=
  [namedFile "a.mp4" 1; namedFile "b.mp4" 2; namedFile "a.mp4" 3].

End CallerVocabulary.

Section MergeVocabulary.
Import AudioAnalysis.

Context {arith : DoubleArith}.
Variable Math_sqrt : Q -> Q.

(** The [classifiedSegments] of [analyzeEnergy]: one segment per window,
    with its label, before merging. *)
Definition classifiedSegmentsOf (buffer : AudioBuffer) : list EnergySegment :=
  let energyLevels := energyLevelsOf Math_sqrt buffer in
  let segments := placeholderSegments Math_sqrt buffer in
  let sortedEnergy := sortAscending energyLevels in
  let lowThreshold := sortedEnergy !! lowIndex (length sortedEnergy) in
  let highThreshold := sortedEnergy !! highIndex (length sortedEnergy) in
  imap (classify energyLevels lowThreshold highThreshold) segments.

(** [summarises group segment]: [segment] stands for the non-empty run
    [group] of windows, all of its label: it starts where the first window
    starts and ends where the last one ends. *)
Definition summarises (group : list EnergySegment) (segment : EnergySegment) : Prop :=
  exists first final,
    head group = Some first
    /\ last group = Some final
    /\ Forall (fun w => intensity w = intensity segment) group
    /\ startTime segment = startTime first
    /\ endTime segment = endTime final.

End MergeVocabulary.

Section RegistryRunVocabulary.
Import VideoAnalysisService.

(** What happens on the main thread: a call of [analyzeVideoContent] or a
    reply of the worker. *)
Inductive registryEvent : Type :=
| Submitted (canCreate : bool) (f : File)
| Replied (message : WorkerMessage).

Definition step (e : registryEvent) (st : State) : State :=
  match e with
  | Submitted canCreate f => snd (analyzeVideoContent canCreate f st)
  | Replied message => workerOnMessage message st
  end.

Definition run (events : list registryEvent) (st : State) : State :=
  fold_left (fun st e => step e st) events st.

(** [repliesTo k e]: the event is the worker's reply for the key [k]. *)
Definition repliesTo (k : string) (e : registryEvent) : Prop :=
  match e with
  | Replied message => msgFileId message = k
  | Submitted _ _ => False
  end.

Definition someAnalysis : VideoAnalysis :=
  {| hasFaces := true; detectedObjects := [{| class := "person"; score := 9 # 10 |}];
     dominantCategory := people; motionLevel := motion_low;
     avgBrightness := 1 # 2; visualComplexity := 1 # 9 |}.

Definition successReply : WorkerMessage :=
  {| msgFileId := fileIdOf largeClip; success := true;
     analysis := Some someAnalysis; error := None |}.

(** Both clips submitted, both answered, both submitted again. *)
Definition busyState : State :=
  run [Submitted true clipFile; Submitted true largeClip;
       Replied failureReply; Replied successReply;
       Submitted true clipFile; Submitted true largeClip] initialState.

End RegistryRunVocabulary.

(** * Properties *)

(** ** The validator *)

Section Validator.
Import JsNumber GeminiService.

Lemma rem_abs_finite_bounds (q : Q) (n : nat) :
  (0 < n)%nat ->
  exists r, rem (Math_abs (Fin q)) (of_nat n) = Fin r
            /\ (0 <= r)%Q /\ (r < inject_Z (Z.of_nat n))%Q.
Proof.
  intros Hn. unfold rem, Math_abs, of_nat.
  set (b := inject_Z (Z.of_nat n)).
  assert (Hb : (0 < b)%Q).
  { unfold b. replace 0%Q with (inject_Z 0) by reflexivity.
    rewrite <- Zlt_Qlt. lia. }
  destruct (Qeq_bool b 0) eqn:E.
  { apply Qeq_bool_iff in E. rewrite E in Hb. exfalso. revert Hb. apply Qlt_irrefl. }
  pose proof (Qabs_nonneg q) as Ha.
  set (a := Qabs q) in *. clearbody a b.
  assert (Hq : (0 <= a / b)%Q).
  { apply Qle_shift_div_l; [exact Hb|]. lra. }
  unfold Qtrunc.
  destruct (Qle_bool 0 (a / b)) eqn:E2.
  2:{ apply Qle_bool_iff in Hq. congruence. }
  eexists. split; [reflexivity|].
  pose proof (Qfloor_le (a / b)) as Hlo.
  pose proof (Qlt_floor (a / b)) as Hhi.
  rewrite inject_Z_plus in Hhi. change (inject_Z 1) with 1%Q in Hhi.
  set (f := inject_Z (Qfloor (a / b))) in *.
  assert (Hab : (a == b * (a / b))%Q).
  { field. intro Hz. rewrite Hz in Hb. revert Hb. apply Qlt_irrefl. }
  split.
  - assert ((b * f <= b * (a / b))%Q).
    { rewrite !(Qmult_comm b). apply Qmult_le_compat_r; lra. }
    lra.
  - assert ((b * (a / b) < b * (f + 1))%Q).
    { rewrite !(Qmult_comm b). apply Qmult_lt_compat_r; lra. }
    lra.
Qed.

(** On a finite index the repair lands in range. *)
Lemma repair_finite_inRange (q : Q) (n : nat) :
  (0 < n)%nat -> inRange n (rem (Math_abs (Fin q)) (of_nat n)) = true.
Proof.
  intros Hn. destruct (rem_abs_finite_bounds q n Hn) as (r & -> & H0 & H1).
  unfold inRange, le, lt, zero, of_nat.
  apply andb_true_intro. split.
  - now apply Qle_bool_iff.
  - destruct (Qle_bool (inject_Z (Z.of_nat n)) r) eqn:E; [|reflexivity].
    apply Qle_bool_iff in E. lra.
Qed.


Lemma NaN_not_inRange (n : nat) : inRange n NaN = false.
Proof. reflexivity. Qed.

(** The spec's example: [clipIndex = -5], [N = 3] repairs to [2]. *)
Example repair_minus_five :
  createVideoSequence (Some (JArray [rawEntry (Fin (-5)) (Fin 1) "cut"])) 3
  = Ok [{| clipIndex := Fin 2; duration := Fin 1; description := "cut" |}].
Proof. vm_compute. reflexivity. Qed.

(** A fractional index stays fractional: inside the bounds, yet not an
    integer. *)
Example repair_fractional :
  createVideoSequence (Some (JArray [rawEntry (Fin (5 # 2)) (Fin 1) "cut"])) 3
  = Ok [{| clipIndex := Fin (5 # 2); duration := Fin 1; description := "cut" |}]
  /\ inRange 3 (Fin (5 # 2)) = true
  /\ is_integer (Fin (5 # 2)) = false.
Proof. repeat split; vm_compute; reflexivity. Qed.

(** C1, at the failing input.  The JSON literal [1e999] (or an integer
    literal of 310 digits or more) parses to [Infinity]; the entry passes
    the structural checks, and [Math.abs(Infinity) % 3] is NaN, which is not
    in [0, 3): the repair does not put this index in range. *)
Theorem repair_of_infinite_index_is_NaN :
  createVideoSequence (Some (JArray [rawEntry PosInf (Fin 1) "cut"])) 3
  = Ok [{| clipIndex := NaN; duration := Fin 1; description := "cut" |}]
  /\ inRange 3 NaN = false.
Proof. split; vm_compute; reflexivity. Qed.

(** *** Structural checks *)

Lemma catchBlock_throws {A} (m : string) : exists m', @catchBlock A m = Throw m'.
Proof.
  unfold catchBlock.
  destruct (includes m "SAFETY"); [eauto|].
  destruct (includes m "unexpected format" || includes m "valid video sequence"); eauto.
Qed.

Lemma createVideoSequence_Ok (response : json) (n : nat) ds :
  createVideoSequence (Some response) n = Ok ds ->
  toArray response = Ok (entriesOf response)
  /\ ds = mapFilter n (entriesOf response) /\ ds <> [].
Proof.
  unfold createVideoSequence, tryBody. simpl.
  destruct (toArray response) as [items|m] eqn:Harr; simpl.
  2:{ destruct (@catchBlock_throws (list EditDecision) m) as [m' ->]. discriminate. }
  assert (items = entriesOf response) as ->.
  { destruct response; simpl in *; try discriminate; try congruence.
    destruct (has_key _ _); simpl in Harr; congruence. }
  destruct (mapFilter n (entriesOf response)) as [|d ds'] eqn:Hmf; simpl.
  - intros H. destruct (@catchBlock_throws (list EditDecision) msg_no_sequence) as [m' Hm].
    rewrite Hm in H. discriminate.
  - intros [= <-]. repeat split; congruence.
Qed.

Lemma assoc_parsed (k : string) fields v :
  forallb (fun kv => parsed (snd kv)) fields = true ->
  assoc k fields = Some v -> parsed v = true.
Proof.
  induction fields as [|[k' v'] rest IH]; simpl; [discriminate|].
  intros Hp. apply andb_prop in Hp as [Hv Hrest].
  destruct (String.eqb k k'); [intros [= <-]; exact Hv | now apply IH].
Qed.

Lemma prop_parsed (item : json) (k : string) v :
  parsed item = true -> prop item k = Some v -> parsed v = true.
Proof.
  destruct item; simpl; try discriminate. intros Hp. now apply assoc_parsed.
Qed.

Lemma not_le_zero_positive (x : number) :
  is_nan x = false -> le x zero = false -> lt zero x = true.
Proof.
  destruct x; simpl; try discriminate; try reflexivity.
  intros _ H. now rewrite H.
Qed.

Lemma repairItem_Some (n : nat) (item : json) d :
  repairItem n item = Some d ->
  exists ci,
    prop item "clipIndex" = Some (JNumber ci)
    /\ prop item "duration" = Some (JNumber (duration d))
    /\ prop item "description" = Some (JString (description d))
    /\ le (duration d) zero = false
    /\ clipIndex d = rem (Math_abs ci) (of_nat n).
Proof.
  unfold repairItem.
  destruct (prop item "clipIndex") as [[| |ci| | |]|]; try discriminate.
  destruct (prop item "duration") as [[| |du| | |]|]; try discriminate.
  destruct (prop item "description") as [[| | |de| |]|]; try discriminate.
  destruct (le du zero) eqn:E; [discriminate|].
  intros [= <-]. simpl. eauto 10.
Qed.

Lemma discardable_repairItem (n : nat) (item : json) :
  discardable item -> repairItem n item = None.
Proof.
  unfold discardable, repairItem.
  intros [H|[H|[(du & Hdu & Hle)|H]]].
  - destruct (prop item "clipIndex") as [[| |ci| | |]|]; try reflexivity.
    exfalso. now apply H.
  - destruct (prop item "clipIndex") as [[| |ci| | |]|]; try reflexivity.
    destruct (prop item "duration") as [[| |du| | |]|]; try reflexivity.
    exfalso. now apply H.
  - rewrite Hdu, Hle.
    destruct (prop item "clipIndex") as [[| |ci| | |]|]; try reflexivity.
    destruct (prop item "description") as [[| | |de| |]|]; reflexivity.
  - destruct (prop item "clipIndex") as [[| |ci| | |]|]; try reflexivity.
    destruct (prop item "duration") as [[| |du| | |]|]; try reflexivity.
    destruct (prop item "description") as [[| | |de| |]|]; try reflexivity.
    exfalso. now apply H.
Qed.

Lemma mapFilter_app (n : nat) (xs ys : list json) :
  mapFilter n (xs ++ ys)%list = (mapFilter n xs ++ mapFilter n ys)%list.
Proof.
  induction xs as [|x xs IH]; simpl; [reflexivity|].
  destruct (repairItem n x); simpl; now rewrite IH.
Qed.

Lemma mapFilter_In (n : nat) (items : list json) d :
  In d (mapFilter n items) -> exists item, In item items /\ repairItem n item = Some d.
Proof.
  induction items as [|x xs IH]; simpl; [tauto|].
  destruct (repairItem n x) as [d'|] eqn:E.
  - intros [<-|Hin]; [eauto|]. destruct (IH Hin) as (item & ? & ?). eauto.
  - intros Hin. destruct (IH Hin) as (item & ? & ?). eauto.
Qed.

Lemma entriesOf_parsed (response item : json) :
  parsed response = true -> In item (entriesOf response) -> parsed item = true.
Proof.
  intros Hp Hin.
  destruct response; simpl in Hin;
    try (destruct Hin as [<-|[]]; exact Hp).
  simpl in Hp. rewrite forallb_forall in Hp. now apply Hp.
Qed.

(** C2, counterexample: an entry whose description is the empty string
    passes the structural checks and is returned. *)
Lemma empty_description_is_returned :
  exists ds d,
    createVideoSequence (Some (JArray [rawEntry (Fin 0) (Fin 1) ""])) 3 = Ok ds
    /\ In d ds /\ description d = "".
Proof.
  eexists. eexists. split; [vm_compute; reflexivity|].
  split; [left; reflexivity | reflexivity].
Qed.

(** C2, amended: every returned decision has [duration > 0] and carries the
    string description (possibly empty) of a raw entry; an entry whose
    [clipIndex] is not a number, whose [duration] is not a number or is
    [<= 0], or whose [description] is not a string is dropped, the outcome
    being that of the same response without it. *)
Theorem returned_decisions_checked (n : nat) :
  (forall response ds,
      parsed response = true ->
      createVideoSequence (Some response) n = Ok ds ->
      Forall (fun d =>
                lt zero (duration d) = true
                /\ exists item, In item (entriesOf response)
                     /\ prop item "duration" = Some (JNumber (duration d))
                     /\ prop item "description" = Some (JString (description d)))
             ds)
  /\ (forall before item after,
        discardable item ->
        createVideoSequence (Some (JArray (before ++ item :: after)%list)) n
        = createVideoSequence (Some (JArray (before ++ after)%list)) n).
Proof.
  split.
  - intros response ds Hp Hok.
    apply createVideoSequence_Ok in Hok as (_ & -> & _).
    apply List.Forall_forall. intros d Hin.
    apply mapFilter_In in Hin as (item & Hitem & Hrep).
    apply repairItem_Some in Hrep as (ci & _ & Hdu & Hde & Hle & _).
    split.
    + apply not_le_zero_positive; [|exact Hle].
      pose proof (entriesOf_parsed _ _ Hp Hitem) as Hpi.
      pose proof (prop_parsed _ _ _ Hpi Hdu) as Hpd. simpl in Hpd.
      now destruct (is_nan (duration d)).
    + eauto.
  - intros before item after Hd.
    unfold createVideoSequence, tryBody. simpl.
    rewrite !mapFilter_app. simpl.
    now rewrite (discardable_repairItem n item Hd).
Qed.

Lemma returned_decisions_checked_witness :
  Forall (fun d => lt zero (duration d) = true
                   /\ exists item,
                        In item (entriesOf (JArray [JNull; rawEntry (Fin 7) (Fin 2) ""]))
                        /\ prop item "duration" = Some (JNumber (duration d))
                        /\ prop item "description" = Some (JString (description d)))
         [{| clipIndex := Fin 1; duration := Fin 2; description := "" |}]
  /\ createVideoSequence (Some (JArray ([] ++ JNull :: [rawEntry (Fin 7) (Fin 2) ""])%list)) 3
     = createVideoSequence (Some (JArray ([] ++ [rawEntry (Fin 7) (Fin 2) ""])%list)) 3.
Proof.
  destruct (returned_decisions_checked 3) as [H1 H2]. split.
  - apply (H1 (JArray [JNull; rawEntry (Fin 7) (Fin 2) ""])).
    + reflexivity.
    + vm_compute. reflexivity.
  - apply H2. left. simpl. discriminate.
Defined.

(** *** A lone object *)

(** C6, counterexample: a lone object without a [clipIndex] key is refused
    for its shape, with another error than the one-element list gets. *)
Lemma lone_object_without_clipIndex_refused :
  createVideoSequence
    (Some (JObject [("duration", JNumber (Fin 2)); ("description", JString "cut")])) 3
  = Throw msg_generic
  /\ createVideoSequence
       (Some (JArray [JObject [("duration", JNumber (Fin 2)); ("description", JString "cut")]])) 3
     = Throw msg_no_sequence
  /\ msg_generic <> msg_no_sequence.
Proof. repeat split; vm_compute; (reflexivity || discriminate). Qed.

(** C6, amended: a lone object that has a [clipIndex] key is treated as the
    one-element list holding it; a lone object without that key is refused
    (the caller sees the generic failure message). *)
Theorem lone_object_wrapped_when_keyed (fields : list (string * json)) (n : nat) :
  createVideoSequence (Some (JObject fields)) n
  = if has_key "clipIndex" (JObject fields)
    then createVideoSequence (Some (JArray [JObject fields])) n
    else Throw msg_generic.
Proof.
  unfold createVideoSequence, tryBody, toArray. simpl.
  destruct (has_key "clipIndex" (JObject fields)); simpl; [reflexivity|].
  vm_compute. reflexivity.
Qed.

End Validator.

(** ** Energy segmentation *)

Section EnergySegments.
Import AudioAnalysis.

Context {arith : DoubleArith}.
Variable Math_sqrt : Q -> Q.

Lemma chained_app s l1 l2 e :
  chained s (l1 ++ l2) e <-> exists m, chained s l1 m /\ chained m l2 e.
Proof.
  revert s. induction l1 as [|x l1 IH]; intros s; simpl.
  - split; [eauto|]. now intros (m & -> & H).
  - rewrite IH. split.
    + intros (Hs & m & H1 & H2). eauto.
    + intros (m & (Hs & H1) & H2). eauto.
Qed.

Lemma chained_head s x r e : chained s (x :: r) e -> startTime x = s.
Proof. now intros [H _]. Qed.

Lemma chained_last s l e :
  chained s l e -> l <> [] -> exists x, last l = Some x /\ endTime x = e.
Proof.
  revert s. induction l as [|x r IH]; intros s Hc Hne; [congruence|].
  destruct Hc as [_ Hc]. destruct r as [|y r].
  - exists x. now split.
  - destruct (IH _ Hc) as (z & Hz & He); [discriminate|].
    exists z. split; [exact Hz | exact He].
Qed.

Lemma chained_lookup s l e i a b :
  chained s l e -> l !! i = Some a -> l !! (S i) = Some b -> endTime a = startTime b.
Proof.
  revert s i. induction l as [|x l IH]; intros s i Hc Ha Hb; [discriminate|].
  destruct Hc as [_ Hc]. destruct i as [|i]; simpl in *.
  - injection Ha as <-. destruct l as [|y l]; [discriminate|].
    injection Hb as <-. symmetry. now destruct Hc.
  - eapply IH; eauto.
Qed.

Lemma chained_imap (f : nat -> EnergySegment -> EnergySegment) s l e :
  (forall i x, startTime (f i x) = startTime x /\ endTime (f i x) = endTime x) ->
  chained s l e -> chained s (imap f l) e.
Proof.
  revert f s. induction l as [|x l IH]; intros f s Hf; simpl; [auto|].
  intros [Hs Hc]. destruct (Hf 0%nat x) as [-> ->]. split; [exact Hs|].
  apply IH; [|exact Hc]. intros i y. apply Hf.
Qed.

(** The window loop covers the buffer from sample [i] to its end. *)
Lemma windowLoop_chained (data : list Q) (sr : nat) :
  (0 < sr)%nat ->
  forall fuel i,
    (length data - i <= fuel)%nat ->
    chained (seconds (Nat.min i (length data)) sr)
            (map snd (windowLoop Math_sqrt fuel data sr i))
            (seconds (length data) sr).
Proof.
  intros Hsr. induction fuel as [|fuel IH]; intros i Hfuel.
  - simpl. f_equal. lia.
  - simpl. destruct (Nat.ltb i (length data)) eqn:E.
    + apply Nat.ltb_lt in E. simpl. split.
      * f_equal. lia.
      * rewrite Nat.mul_1_r. apply IH. lia.
    + apply Nat.ltb_ge in E. simpl. f_equal. lia.
Qed.

(** More fuel than the samples left changes nothing: the loop has ended. *)
Lemma windowLoop_fuel (data : list Q) (sr : nat) :
  (0 < sr)%nat ->
  forall fuel1 fuel2 i,
    (length data - i <= fuel1)%nat -> (length data - i <= fuel2)%nat ->
    windowLoop Math_sqrt fuel1 data sr i = windowLoop Math_sqrt fuel2 data sr i.
Proof.
  intros Hsr. induction fuel1 as [|fuel1 IH]; intros fuel2 i H1 H2.
  - destruct fuel2 as [|fuel2]; simpl; [reflexivity|].
    destruct (Nat.ltb i (length data)) eqn:E; [|reflexivity].
    apply Nat.ltb_lt in E. lia.
  - simpl. destruct (Nat.ltb i (length data)) eqn:E.
    + apply Nat.ltb_lt in E. destruct fuel2 as [|fuel2]; [lia|].
      simpl. apply Nat.ltb_lt in E. rewrite E. f_equal.
      apply IH; apply Nat.ltb_lt in E; lia.
    + destruct fuel2 as [|fuel2]; simpl; [reflexivity|]. now rewrite E.
Qed.

Lemma windowLoop_nonempty (data : list Q) (sr fuel : nat) :
  data <> [] -> windowLoop Math_sqrt (S fuel) data sr 0 <> [].
Proof.
  intros Hd. simpl. destruct data; [congruence|]. simpl. discriminate.
Qed.

Lemma placeholderSegments_chained (buffer : AudioBuffer) :
  (0 < sampleRate buffer)%nat ->
  chained (seconds 0 (sampleRate buffer)) (placeholderSegments Math_sqrt buffer)
          (bufferDuration buffer).
Proof.
  intros Hsr. unfold placeholderSegments, bufferDuration.
  pose proof (windowLoop_chained (channelData buffer) _ Hsr
                (length (channelData buffer)) 0) as H.
  rewrite Nat.min_0_l in H. apply H. lia.
Qed.

Lemma mergeLoop_chained rest : forall current merged s e,
  chained s (merged ++ current :: rest) e ->
  chained s (mergeLoop rest current merged) e.
Proof.
  induction rest as [|next rest IH]; intros current merged s e H; simpl.
  - exact H.
  - destruct (Intensity_eqb (intensity next) (intensity current)).
    + apply IH. apply chained_app in H as (m & H1 & Hs & He & Hr).
      apply chained_app. exists m. split; [exact H1|].
      simpl. split; [exact Hs|]. exact Hr.
    + apply IH. rewrite <- app_assoc. exact H.
Qed.

Lemma mergeLoop_nonempty rest : forall current merged,
  mergeLoop rest current merged <> [].
Proof.
  induction rest as [|next rest IH]; intros current merged; simpl.
  - destruct merged; discriminate.
  - destruct (Intensity_eqb _ _); apply IH.
Qed.

Lemma analyzeEnergy_chained (buffer : AudioBuffer) :
  (0 < sampleRate buffer)%nat ->
  channelData buffer <> [] ->
  analyzeEnergy Math_sqrt buffer <> []
  /\ chained (seconds 0 (sampleRate buffer)) (analyzeEnergy Math_sqrt buffer)
             (bufferDuration buffer).
Proof.
  intros Hsr Hd. unfold analyzeEnergy.
  pose proof (placeholderSegments_chained buffer Hsr) as Hc.
  assert (Hlen : length (energyLevelsOf Math_sqrt buffer)
                 = length (placeholderSegments Math_sqrt buffer)).
  { unfold energyLevelsOf, placeholderSegments. now rewrite !length_map. }
  assert (Hne : placeholderSegments Math_sqrt buffer <> []).
  { unfold placeholderSegments. destruct (channelData buffer) as [|x d] eqn:Ed; [congruence|].
    simpl. discriminate. }
  destruct (Nat.eqb _ 0) eqn:E.
  { apply Nat.eqb_eq in E. rewrite Hlen in E.
    destruct (placeholderSegments Math_sqrt buffer); [congruence|discriminate]. }
  set (cl := classify _ _ _).
  assert (Hcl : chained (seconds 0 (sampleRate buffer))
                        (imap cl (placeholderSegments Math_sqrt buffer))
                        (bufferDuration buffer)).
  { apply chained_imap; [|exact Hc]. intros i x. unfold cl, classify.
    destruct (_ !! i); [|now split].
    destruct (geThreshold _ _); [now split|].
    destruct (geThreshold _ _); now split. }
  destruct (imap cl (placeholderSegments Math_sqrt buffer)) as [|first rest] eqn:Ei.
  { destruct (placeholderSegments Math_sqrt buffer); [congruence|discriminate]. }
  split; [apply mergeLoop_nonempty|].
  apply mergeLoop_chained. exact Hcl.
Qed.

Lemma seconds_zero (sr : nat) : (seconds 0 sr == 0)%Q.
Proof. unfold seconds. simpl. apply Qmult_0_l. Qed.

(** C5.  For a non-empty buffer the returned segments partition
    [[0, duration]]: the first starts at 0, each ends where the next starts,
    and the last ends at the duration of the buffer; an empty buffer gives
    no segment. *)
Theorem energySegments_partition (buffer : AudioBuffer) :
  (channelData buffer = [] -> analyzeEnergy Math_sqrt buffer = [])
  /\ ((0 < sampleRate buffer)%nat ->
      channelData buffer <> [] ->
      exists first final,
        head (analyzeEnergy Math_sqrt buffer) = Some first
        /\ (startTime first == 0)%Q
        /\ last (analyzeEnergy Math_sqrt buffer) = Some final
        /\ (endTime final == bufferDuration buffer)%Q
        /\ forall i a b,
            analyzeEnergy Math_sqrt buffer !! i = Some a ->
            analyzeEnergy Math_sqrt buffer !! (S i) = Some b ->
            (endTime a == startTime b)%Q).
Proof.
  split.
  - intros Hd. unfold analyzeEnergy, energyLevelsOf. rewrite Hd. reflexivity.
  - intros Hsr Hd.
    destruct (analyzeEnergy_chained buffer Hsr Hd) as [Hne Hc].
    destruct (analyzeEnergy Math_sqrt buffer) as [|x r] eqn:E; [congruence|].
    destruct (chained_last _ _ _ Hc) as (z & Hz & He); [discriminate|].
    exists x, z. repeat split.
    + rewrite (chained_head _ _ _ _ Hc). apply seconds_zero.
    + exact Hz.
    + now rewrite He.
    + intros i a b Ha Hb. now rewrite (chained_lookup _ _ _ _ _ _ Hc Ha Hb).
Qed.

(** *** Merging *)

Lemma Intensity_eqb_eq (a b : Intensity) : Intensity_eqb a b = true <-> a = b.
Proof. destruct a, b; simpl; split; congruence. Qed.

Lemma alternating_snoc (l : list Intensity) (a b : Intensity) :
  alternating (l ++ [a]) -> a <> b -> alternating ((l ++ [a]) ++ [b]).
Proof.
  induction l as [|x l IH]; simpl; [tauto|].
  destruct l as [|y l]; simpl in *; [tauto|].
  intros [Hxy H] Hab. split; [exact Hxy|]. now apply IH.
Qed.

Lemma mergeLoop_alternating rest : forall current merged,
  alternating (map intensity (merged ++ [current])) ->
  alternating (map intensity (mergeLoop rest current merged)).
Proof.
  induction rest as [|next rest IH]; intros current merged H; simpl; [exact H|].
  destruct (Intensity_eqb (intensity next) (intensity current)) eqn:E.
  - apply IH. rewrite map_app in *. exact H.
  - apply IH. rewrite map_app, map_app in *. simpl in *.
    apply alternating_snoc; [exact H|].
    intros Heq. symmetry in Heq. apply Intensity_eqb_eq in Heq. congruence.
Qed.

Lemma alternating_lookup (l : list EnergySegment) i a b :
  alternating (map intensity l) ->
  l !! i = Some a -> l !! (S i) = Some b -> intensity a <> intensity b.
Proof.
  revert i. induction l as [|x l IH]; intros i H Ha Hb; [discriminate|].
  destruct l as [|y l]; [destruct i; discriminate|].
  destruct H as [Hxy H]. destruct i as [|i]; simpl in *.
  - injection Ha as <-. injection Hb as <-. exact Hxy.
  - now apply (IH i).
Qed.

Lemma analyzeEnergy_merges (buffer : AudioBuffer) :
  analyzeEnergy Math_sqrt buffer
  = match classifiedSegmentsOf Math_sqrt buffer with
    | [] => []
    | first :: rest => mergeLoop rest first []
    end.
Proof.
  unfold analyzeEnergy, classifiedSegmentsOf.
  destruct (Nat.eqb (length (energyLevelsOf Math_sqrt buffer)) 0) eqn:E; [|reflexivity].
  apply Nat.eqb_eq in E.
  assert (Hs : placeholderSegments Math_sqrt buffer = []).
  { unfold energyLevelsOf, placeholderSegments in *. rewrite length_map in E.
    destruct (windowLoop _ _ _ _ _); [reflexivity|discriminate]. }
  now rewrite Hs.
Qed.

Lemma window_times (data : list Q) (sr : nat) : forall fuel i k w,
  map snd (windowLoop Math_sqrt fuel data sr i) !! k = Some w ->
  startTime w = seconds (i + k * sr) sr
  /\ endTime w = seconds (Nat.min (i + k * sr + sr) (length data)) sr.
Proof.
  induction fuel as [|fuel IH]; intros i k w; simpl; [discriminate|].
  destruct (Nat.ltb i (length data)); [|discriminate].
  rewrite Nat.mul_1_r. destruct k as [|k]; simpl.
  - intros [= <-]. simpl. rewrite Nat.add_0_r. now split.
  - intros Hk. apply IH in Hk as [-> ->].
    replace (i + sr + k * sr)%nat with (i + (sr + k * sr))%nat by lia.
    now split.
Qed.

Lemma summarises_single (w : EnergySegment) : summarises [w] w.
Proof. exists w, w. repeat split. now repeat constructor. Qed.

Lemma summarises_extend (group : list EnergySegment) (current next : EnergySegment) :
  summarises group current ->
  intensity next = intensity current ->
  summarises (group ++ [next]) (withEndTime current (endTime next)).
Proof.
  intros (first & final & Hh & Hl & Hall & Hs & He) Hi.
  exists first, next. repeat split.
  - destruct group; [discriminate|exact Hh].
  - apply last_snoc.
  - apply Forall_app. split; [exact Hall|]. now repeat constructor.
  - exact Hs.
Qed.

Lemma mergeLoop_groups rest : forall current merged done group,
  Forall2 summarises done merged ->
  summarises group current ->
  exists groups,
    Forall2 summarises groups (mergeLoop rest current merged)
    /\ concat groups = (concat done ++ group ++ rest)%list.
Proof.
  induction rest as [|next rest IH]; intros current merged done group Hd Hg; simpl.
  - exists (done ++ [group])%list. split.
    + apply Forall2_app; [exact Hd|]. now repeat constructor.
    + rewrite concat_app. simpl. now rewrite !app_nil_r.
  - destruct (Intensity_eqb (intensity next) (intensity current)) eqn:E.
    + apply Intensity_eqb_eq in E.
      destruct (IH (withEndTime current (endTime next)) merged done (group ++ [next])%list)
        as (groups & Hf & Hc); [exact Hd|now apply summarises_extend|].
      exists groups. split; [exact Hf|].
      rewrite Hc, <- !app_assoc. reflexivity.
    + destruct (IH next (merged ++ [current])%list (done ++ [group])%list [next])
        as (groups & Hf & Hc).
      * apply Forall2_app; [exact Hd|]. now repeat constructor.
      * apply summarises_single.
      * exists groups. split; [exact Hf|].
        rewrite Hc, concat_app. simpl. rewrite app_nil_r, <- !app_assoc. reflexivity.
Qed.

(** C7.  No two adjacent segments of the result carry the same intensity,
    and consecutive windows of equal classification are merged into one
    segment: the classified windows (the k-th running from [k] seconds to
    [k + 1] seconds or the end of the buffer) split into consecutive runs,
    one per returned segment, each run of one label, the segment starting
    where the first window of its run starts and ending where the last one
    ends. *)
Theorem equal_windows_merged (buffer : AudioBuffer) :
  (forall i a b,
      analyzeEnergy Math_sqrt buffer !! i = Some a ->
      analyzeEnergy Math_sqrt buffer !! (S i) = Some b ->
      intensity a <> intensity b)
  /\ (exists groups,
        concat groups = classifiedSegmentsOf Math_sqrt buffer
        /\ Forall2 summarises groups (analyzeEnergy Math_sqrt buffer))
  /\ (forall k w,
        classifiedSegmentsOf Math_sqrt buffer !! k = Some w ->
        startTime w = seconds (k * sampleRate buffer) (sampleRate buffer)
        /\ endTime w
           = seconds (Nat.min (k * sampleRate buffer + sampleRate buffer)
                              (length (channelData buffer)))
                     (sampleRate buffer)).
Proof.
  split; [|split].
  - intros i a b. apply alternating_lookup. rewrite analyzeEnergy_merges.
    destruct (classifiedSegmentsOf Math_sqrt buffer) as [|first rest]; [exact I|].
    apply mergeLoop_alternating. exact I.
  - rewrite analyzeEnergy_merges.
    destruct (classifiedSegmentsOf Math_sqrt buffer) as [|first rest].
    + exists []. split; [reflexivity|constructor].
    + destruct (mergeLoop_groups rest first [] [] [first]) as (groups & Hf & Hc).
      * constructor.
      * apply summarises_single.
      * exists groups. split; [exact Hc|exact Hf].
  - intros k w. unfold classifiedSegmentsOf.
    rewrite list_lookup_imap.
    destruct (placeholderSegments Math_sqrt buffer !! k) as [x|] eqn:Ex; [|discriminate].
    simpl. intros [= <-].
    apply window_times in Ex. simpl in Ex.
    unfold classify. destruct (_ !! k); [|exact Ex].
    destruct (geThreshold _ _); [exact Ex|].
    destruct (geThreshold _ _); exact Ex.
Qed.

(** *** Uniform energy *)



Lemma insertSorted_length x l : length (insertSorted x l) = S (length l).
Proof.
  induction l as [|y l IH]; simpl; [reflexivity|].
  destruct (Qle_bool x y); simpl; now rewrite ?IH.
Qed.

Lemma sortAscending_length l : length (sortAscending l) = length l.
Proof.
  induction l as [|x l IH]; simpl; [reflexivity|].
  now rewrite insertSorted_length, IH.
Qed.

Lemma highIndex_lt (n : nat) : (0 < n)%nat -> (highIndex n < n)%nat.
Proof.
  intros Hn. unfold highIndex. apply Nat.Div0.div_lt_upper_bound. lia.
Qed.

Lemma lowIndex_lt (n : nat) : (0 < n)%nat -> (lowIndex n < n)%nat.
Proof.
  intros Hn. unfold lowIndex. apply Nat.Div0.div_lt_upper_bound. lia.
Qed.

Lemma Forall_imap {A B} (P : B -> Prop) (f : nat -> A -> B) (l : list A) :
  (forall i x, l !! i = Some x -> P (f i x)) -> Forall P (imap f l).
Proof.
  revert f. induction l as [|x l IH]; intros f Hf; simpl; constructor.
  - now apply (Hf 0%nat).
  - apply IH. intros i y Hy. now apply (Hf (S i)).
Qed.



End EnergySegments.

Section EnergyExamples.
Import AudioAnalysis.
#[local] Existing Instance exactArith.

Example steppedBuffer_segments :
  analyzeEnergy sqrtOnUnit steppedBuffer
  = [{| startTime := 0 # 2; endTime := 2 # 2; intensity := medium |};
     {| startTime := 2 # 2; endTime := 6 # 2; intensity := high |};
     {| startTime := 6 # 2; endTime := 7 # 2; intensity := medium |}].
Proof. vm_compute. reflexivity. Qed.

Lemma energySegments_partition_witness :
  exists first final,
    head (analyzeEnergy sqrtOnUnit steppedBuffer) = Some first
    /\ (startTime first == 0)%Q
    /\ last (analyzeEnergy sqrtOnUnit steppedBuffer) = Some final
    /\ (endTime final == bufferDuration steppedBuffer)%Q
    /\ forall i a b,
        analyzeEnergy sqrtOnUnit steppedBuffer !! i = Some a ->
        analyzeEnergy sqrtOnUnit steppedBuffer !! (S i) = Some b ->
        (endTime a == startTime b)%Q.
Proof.
  apply (proj2 (energySegments_partition sqrtOnUnit steppedBuffer)).
  - simpl. lia.
  - discriminate.
Defined.

Lemma equal_windows_merged_witness :
  medium <> high
  /\ (exists groups,
        concat groups = classifiedSegmentsOf sqrtOnUnit steppedBuffer
        /\ Forall2 summarises groups (analyzeEnergy sqrtOnUnit steppedBuffer))
  /\ endTime {| startTime := 4 # 2; endTime := 6 # 2; intensity := high |}
     = seconds (Nat.min (2 * sampleRate steppedBuffer + sampleRate steppedBuffer)
                        (length (channelData steppedBuffer)))
               (sampleRate steppedBuffer).
Proof.
  destruct (equal_windows_merged sqrtOnUnit steppedBuffer) as (H1 & H2 & H3).
  split; [|split].
  - apply (H1 0%nat
             {| startTime := 0 # 2; endTime := 2 # 2; intensity := medium |}
             {| startTime := 2 # 2; endTime := 6 # 2; intensity := high |});
      reflexivity.
  - exact H2.
  - apply (H3 2%nat {| startTime := 4 # 2; endTime := 6 # 2; intensity := high |}).
    reflexivity.
Defined.


(** On doubles the two windows of [reorderedBuffer] get different energies,
    although their mean squares are equal: the buffer is outside the
    hypothesis above, and its result has two segments. *)
Example reorderedBuffer_on_doubles :
  analyzeEnergy (arith := Binary64.binary64) Binary64.sqrtDouble reorderedBuffer
  = [{| startTime := 0 # 3; endTime := 3 # 3; intensity := high |};
     {| startTime := 3 # 3; endTime := 6 # 3; intensity := medium |}]
  /\ analyzeEnergy (arith := exactArith) Binary64.sqrtDouble reorderedBuffer
     = [{| startTime := 0 # 3; endTime := 6 # 3; intensity := high |}].
Proof. split; vm_compute; reflexivity. Qed.

End EnergyExamples.

(** ** The video worker *)

Section VideoWorker.
Import VideoAnalysisService.

Variable luminance : Z -> Z -> Z -> Z.

Lemma interior_length (w h : nat) :
  length (interior w h) = ((h - 2) * (w - 2))%nat.
Proof.
  unfold interior.
  assert (H : forall (xs ys : list nat),
             length (flat_map (fun y => map (fun x => (x, y)) xs) ys)
             = (length ys * length xs)%nat).
  { intros xs ys. induction ys as [|y ys IH]; simpl; [reflexivity|].
    rewrite length_app, length_map, IH. reflexivity. }
  rewrite H, !length_seq. reflexivity.
Qed.

Lemma edgePixelsOf_le (imageData : ImageData) :
  (edgePixelsOf luminance imageData <= width imageData * height imageData)%nat.
Proof.
  unfold edgePixelsOf.
  etransitivity; [apply length_filter|].
  rewrite interior_length. nia.
Qed.

(** [applySobel] itself returns a fraction of the pixels of the frame. *)
Lemma applySobel_fraction (imageData : ImageData) :
  (0 < width imageData * height imageData)%nat ->
  (0 <= applySobel luminance imageData)%Q /\ (applySobel luminance imageData <= 1)%Q.
Proof.
  intros Hpos. unfold applySobel.
  pose proof (edgePixelsOf_le imageData) as Hle.
  set (e := edgePixelsOf luminance imageData) in *.
  set (n := (width imageData * height imageData)%nat) in *.
  assert (Hn : (0 < inject_Z (Z.of_nat n))%Q).
  { replace 0%Q with (inject_Z 0) by reflexivity. rewrite <- Zlt_Qlt. lia. }
  split.
  - apply Qle_shift_div_l; [exact Hn|]. rewrite Qmult_0_l.
    replace 0%Q with (inject_Z 0) by reflexivity. rewrite <- Zle_Qle. lia.
  - apply Qle_shift_div_r; [exact Hn|]. rewrite Qmult_1_l.
    rewrite <- Zle_Qle. lia.
Qed.

Lemma sumBrightness_Ok (frames : list ImageData) : forall sum,
  exists total, sumBrightness luminance frames sum = Ok total.
Proof.
  induction frames as [|fd rest IH]; intros sum; simpl; [eauto|].
  apply IH.
Qed.

Lemma analyzeSobel_undeclared (imageData : ImageData) :
  callMetric luminance "analyzeSobel" imageData = Throw "analyzeSobel is not defined".
Proof. reflexivity. Qed.

Lemma analyzeFrames_throws (env : WorkerEnv) :
  exists message, analyzeFrames luminance env = Throw message.
Proof.
  unfold analyzeFrames.
  destruct (loadModels env) as [[]|m]; simpl; [|eauto].
  destruct (frameDatas env) as [[firstFrame moreFrames]|m]; simpl; [|eauto].
  destruct (detect env _) as [objs|m]; simpl; [|eauto].
  destruct (estimateFaces env _) as [faces|m]; simpl; [|eauto].
  destruct (sumBrightness_Ok moreFrames (0 + analyzeBrightness firstFrame)%Q) as [total Ht].
  simpl in Ht. rewrite Ht. simpl. eauto.
Qed.

(** C3, on every input.  The handler computes [visualComplexity] by calling
    [analyzeSobel], a name the worker code never declares (the Sobel
    function is declared as [applySobel]); the call throws, so the worker
    answers [success: false] for every clip and no analysis, hence no
    [visualComplexity], is ever produced. *)
Theorem worker_never_yields_analysis (env : WorkerEnv) (fileId : string) :
  success (onmessage luminance env fileId) = false
  /\ analysis (onmessage luminance env fileId) = None.
Proof.
  unfold onmessage.
  destruct (analyzeFrames_throws env) as [message ->]. now split.
Qed.

End VideoWorker.

Section VideoWorkerExample.
Import VideoAnalysisService.

(** With models, frames and detections all available, the reply is the
    [ReferenceError] of [analyzeSobel]; [applySobel] on the same frame
    would have given 1/9. *)
Example worker_reply_on_edgeFrame :
  error (onmessage (fun r _ _ => r) workingEnv "clip.mp4-1-9")
  = Some "analyzeSobel is not defined"
  /\ applySobel (fun r _ _ => r) edgeFrame = (1 # 9)%Q.
Proof. split; vm_compute; reflexivity. Qed.

End VideoWorkerExample.

(** ** Dominant category *)

Section Classification.
Import VideoAnalysisService.

Lemma has_label (objects : list DetectedObject) (c : string) :
  bool_decide (c ∈ (list_to_set (map class objects) : gset string)) = true
  <-> labelled objects c.
Proof.
  rewrite bool_decide_eq_true, elem_of_list_to_set, list_elem_of_In. reflexivity.
Qed.

Lemma has_no_label (objects : list DetectedObject) (c : string) :
  bool_decide (c ∈ (list_to_set (map class objects) : gset string)) = false
  <-> ~ labelled objects c.
Proof.
  rewrite bool_decide_eq_false, elem_of_list_to_set, list_elem_of_In. reflexivity.
Qed.

Ltac by_label c :=
  let E := fresh "E" in
  match goal with
  | objects : list DetectedObject |- _ =>
      destruct (bool_decide (c ∈ (list_to_set (map class objects) : gset string))) eqn:E;
      [apply has_label in E | apply has_no_label in E]
  end.

(** C9.  The category follows the fixed precedence person, then
    vehicle/traffic, then sport equipment, then animal/plant, then other. *)
Theorem classifyObjects_precedence (objects : list DetectedObject) :
  (labelled objects "person" -> classifyObjects objects = people)
  /\ (~ labelled objects "person" -> urbanLabel objects ->
      classifyObjects objects = urban)
  /\ (~ labelled objects "person" -> ~ urbanLabel objects -> actionLabel objects ->
      classifyObjects objects = action)
  /\ (~ labelled objects "person" -> ~ urbanLabel objects -> ~ actionLabel objects ->
      natureLabel objects -> classifyObjects objects = nature)
  /\ (~ labelled objects "person" -> ~ urbanLabel objects -> ~ actionLabel objects ->
      ~ natureLabel objects -> classifyObjects objects = other).
Proof.
  unfold classifyObjects, urbanLabel, actionLabel, natureLabel.
  by_label "person"; [repeat split; tauto|].
  by_label "car"; by_label "bus"; by_label "traffic light"; simpl;
    try (repeat split; tauto).
  by_label "sports ball"; by_label "skateboard"; by_label "surfboard"; simpl;
    try (repeat split; tauto).
  by_label "bird"; by_label "cat"; by_label "dog"; by_label "tree"; simpl;
    repeat split; tauto.
Qed.

(** The rule-order test: a person and a car together classify as people. *)
Lemma classifyObjects_precedence_witness :
  classifyObjects [{| class := "person"; score := 9 # 10 |};
                   {| class := "car"; score := 8 # 10 |}] = people.
Proof.
  apply (proj1 (classifyObjects_precedence _)). left. reflexivity.
Defined.

End Classification.

(** ** The in-flight registry *)

Section Registry.
Import VideoAnalysisService.

Lemma submission_registers (canCreate : bool) (f : File) (st st' : State) (h : nat) :
  analyzeVideoContent canCreate f st = (Pending h, st') ->
  worker st' = true
  /\ runningTasks st' !! fileIdOf f = Some h
  /\ posted st' = (posted st ++ [(f, fileIdOf f)])%list.
Proof.
  unfold analyzeVideoContent, getWorker.
  destruct (worker st) eqn:Hw; simpl.
  - destruct (bool_decide _); [discriminate|].
    intros [= <- <-]. simpl. rewrite lookup_insert_eq. auto.
  - destruct canCreate; simpl; [|discriminate].
    destruct (bool_decide _); [discriminate|].
    intros [= <- <-]. simpl. rewrite lookup_insert_eq. auto.
Qed.

(** In a reachable state a registered task implies a live worker. *)
Lemma reachable_worker (st : State) :
  reachable st ->
  forall k, is_Some (runningTasks st !! k) -> worker st = true.
Proof.
  induction 1 as [|canCreate f st Hr IH|event st Hr IH]; intros k Hk.
  - simpl in Hk. rewrite lookup_empty in Hk. now destruct Hk.
  - revert Hk. unfold analyzeVideoContent, getWorker.
    destruct (worker st) eqn:Hw; simpl.
    + destruct (bool_decide _); simpl; auto.
    + destruct canCreate; simpl.
      * destruct (bool_decide _); simpl; auto.
      * intros Hk. exact (IH k Hk).
  - revert Hk. unfold workerOnMessage.
    destruct (runningTasks st !! msgFileId event) as [h|] eqn:E; simpl.
    + intros Hk. apply (IH k).
      destruct (decide (msgFileId event = k)) as [Heq|Hne].
      * rewrite Heq, lookup_delete_eq in Hk. now destruct Hk.
      * now rewrite lookup_delete_ne in Hk.
    + apply IH.
Qed.

(** Two calls in a row for the same key: the first registers and posts, the
    second posts nothing. *)
Lemma second_submission_posts_nothing (c1 c2 : bool) (f1 f2 : File) (st st1 : State) (h : nat) :
  fileIdOf f1 = fileIdOf f2 ->
  analyzeVideoContent c1 f1 st = (Pending h, st1) ->
  analyzeVideoContent c2 f2 st1 = (RejectedWith msg_in_progress, st1)
  /\ posted st1 = (posted st ++ [(f1, fileIdOf f1)])%list.
Proof.
  intros Hid H1. apply submission_registers in H1 as (Hw & Hreg & Hposted).
  split; [|exact Hposted].
  unfold analyzeVideoContent, getWorker. rewrite Hw. simpl.
  rewrite <- Hid, Hreg. reflexivity.
Qed.

(** Once the worker has replied for a key, that key can be submitted again. *)
Lemma resubmission_after_reply (canCreate : bool) (f : File) (event : WorkerMessage) (st : State) :
  worker st = true ->
  msgFileId event = fileIdOf f ->
  exists h st',
    analyzeVideoContent canCreate f (workerOnMessage event st) = (Pending h, st').
Proof.
  intros Hw Hid. unfold workerOnMessage. rewrite Hid.
  destruct (runningTasks st !! fileIdOf f) as [h|] eqn:E.
  - unfold analyzeVideoContent, getWorker. simpl. rewrite Hw. simpl.
    rewrite lookup_delete_eq. simpl. eauto.
  - unfold analyzeVideoContent, getWorker. rewrite Hw. simpl.
    rewrite E. simpl. eauto.
Qed.

(** C8.  In any state the main thread can reach, while a task for the key
    of [f] is in flight a further call for that key is rejected as already
    in progress and leaves the state as it was: nothing is registered and
    nothing is posted to the worker. *)
Theorem duplicate_submission_rejected (canCreate : bool) (f : File) (st : State) :
  reachable st ->
  is_Some (runningTasks st !! fileIdOf f) ->
  analyzeVideoContent canCreate f st = (RejectedWith msg_in_progress, st).
Proof.
  intros Hr Hin.
  pose proof (reachable_worker st Hr _ Hin) as Hw.
  unfold analyzeVideoContent, getWorker. rewrite Hw. simpl.
  now rewrite bool_decide_eq_true_2.
Qed.

Lemma duplicate_submission_rejected_witness :
  analyzeVideoContent true clipFile (snd (analyzeVideoContent true clipFile initialState))
  = (RejectedWith msg_in_progress, snd (analyzeVideoContent true clipFile initialState)).
Proof.
  apply duplicate_submission_rejected.
  - apply reach_submit, reach_init.
  - exists 0%nat.
    apply (submission_registers true clipFile initialState
             (snd (analyzeVideoContent true clipFile initialState)) 0%nat).
    reflexivity.
Defined.

End Registry.

(** ** Clip identifiers *)

Section ClipIdentity.
Import VideoAnalysisService VideoUtils.

Lemma append_assoc (a b c : string) :
  String.append (String.append a b) c = String.append a (String.append b c).
Proof.
  induction a as [|ch a IH]; [reflexivity|].
  change (String ch (String.append (String.append a b) c)
          = String ch (String.append a (String.append b c))).
  now rewrite IH.
Qed.

(** C4, counterexample: two files that differ only in size get the same
    id from [getClipMetadata], although the coordinator's keys differ. *)
Lemma ids_collide_across_sizes :
  exists m1 m2,
    getClipMetadata smallClip (Some someVideo) (Ok "thumb") = Ok m1
    /\ getClipMetadata largeClip (Some someVideo) (Ok "thumb") = Ok m2
    /\ size smallClip <> size largeClip
    /\ id m1 = id m2
    /\ fileIdOf smallClip <> fileIdOf largeClip
    /\ id m1 <> fileIdOf smallClip.
Proof.
  eexists. eexists. split; [reflexivity|]. split; [reflexivity|].
  repeat split; vm_compute; (reflexivity || discriminate).
Qed.

(** C4, amended: the id is derived from the name and the modification time
    only, so files with the same name and modification time get the same id
    whatever their sizes; the coordinator's key is that id followed by
    ["-"] and the size. *)
Theorem clip_id_from_name_and_time (f1 f2 : File) (v1 v2 : option VideoElement)
    (t1 t2 : result string) (m1 m2 : ClipMetadata) :
  name f1 = name f2 ->
  lastModified f1 = lastModified f2 ->
  getClipMetadata f1 v1 t1 = Ok m1 ->
  getClipMetadata f2 v2 t2 = Ok m2 ->
  id m1 = id m2
  /\ id m1 = name f1 ++ "-" ++ numberToString (lastModified f1)
  /\ fileIdOf f1 = id m1 ++ "-" ++ numberToString (size f1).
Proof.
  intros Hn Hl H1 H2. unfold getClipMetadata in *.
  destruct v1 as [v1|]; [|discriminate]. destruct v2 as [v2|]; [|discriminate].
  destruct t1 as [t1|]; [|discriminate]. destruct t2 as [t2|]; [|discriminate].
  simpl in H1, H2. injection H1 as <-. injection H2 as <-. simpl.
  rewrite Hn, Hl. repeat split.
  unfold fileIdOf. rewrite <- Hn, <- Hl.
  now rewrite !append_assoc.
Qed.

Lemma clip_id_from_name_and_time_witness :
  id {| id := "clip.mp4-1700000000000"; file := smallClip; clipName := "clip.mp4";
        clipSize := 1000; clipDuration := 12;
        resolution := {| resWidth := 1920; resHeight := 1080 |};
        thumbnail := "thumb" |}
  = id {| id := "clip.mp4-1700000000000"; file := largeClip; clipName := "clip.mp4";
          clipSize := 2000; clipDuration := 12;
          resolution := {| resWidth := 1920; resHeight := 1080 |};
          thumbnail := "thumb" |}
  /\ "clip.mp4-1700000000000" = "clip.mp4" ++ "-" ++ numberToString 1700000000000
  /\ fileIdOf smallClip = "clip.mp4-1700000000000" ++ "-" ++ numberToString 1000.
Proof.
  apply (clip_id_from_name_and_time smallClip largeClip
           (Some someVideo) (Some someVideo) (Ok "thumb") (Ok "thumb")).
  - reflexivity.
  - reflexivity.
  - vm_compute. reflexivity.
  - vm_compute. reflexivity.
Defined.

End ClipIdentity.

(** * Further properties *)

(** ** The validator: repaired indices and failures *)

Section ValidatorIndices.
Import JsNumber GeminiService.

Lemma of_nat_positive (n : nat) : (0 < n)%nat -> (0 < inject_Z (Z.of_nat n))%Q.
Proof.
  intros Hn. replace 0%Q with (inject_Z 0) by reflexivity.
  rewrite <- Zlt_Qlt. lia.
Qed.

Lemma rem_abs_integer (z : Z) (n : nat) :
  (0 < n)%nat ->
  exists r, rem (Math_abs (Fin (inject_Z z))) (of_nat n) = Fin r
            /\ (r == inject_Z (Z.abs z mod Z.of_nat n))%Q.
Proof.
  intros Hn. pose proof (of_nat_positive n Hn) as Hb.
  unfold rem, Math_abs, of_nat.
  change (Qabs (inject_Z z)) with (inject_Z (Z.abs z)).
  destruct (Qeq_bool (inject_Z (Z.of_nat n)) 0) eqn:E.
  { apply Qeq_bool_iff in E. rewrite E in Hb. exfalso. revert Hb. apply Qlt_irrefl. }
  assert (Hq : (0 <= inject_Z (Z.abs z) / inject_Z (Z.of_nat n))%Q).
  { apply Qle_shift_div_l; [exact Hb|]. rewrite Qmult_0_l.
    replace 0%Q with (inject_Z 0) by reflexivity. rewrite <- Zle_Qle. lia. }
  unfold Qtrunc. apply Qle_bool_iff in Hq. rewrite Hq.
  eexists. split; [reflexivity|].
  rewrite <- Zdiv_Qdiv, <- inject_Z_mult.
  unfold Qminus. rewrite <- inject_Z_opp, <- inject_Z_plus.
  rewrite Z.mod_eq by lia. reflexivity.
Qed.

(** For an integral [clipIndex] the repaired index is the integer
    [|clipIndex| mod N]. *)
Theorem repaired_integer_index (n : nat) (item : json) (z : Z) (d : EditDecision) :
  (0 < n)%nat ->
  prop item "clipIndex" = Some (JNumber (Fin (inject_Z z))) ->
  repairItem n item = Some d ->
  exists r, clipIndex d = Fin r
            /\ (r == inject_Z (Z.abs z mod Z.of_nat n))%Q.
Proof.
  intros Hn Hci Hrep.
  apply repairItem_Some in Hrep as (ci & Hci' & _ & _ & _ & ->).
  rewrite Hci in Hci'. injection Hci' as <-.
  now apply rem_abs_integer.
Qed.

Lemma repaired_integer_index_witness :
  exists r, clipIndex {| clipIndex := Fin 2; duration := Fin 1; description := "cut" |} = Fin r
            /\ (r == inject_Z (Z.abs (-5) mod Z.of_nat 3))%Q.
Proof.
  apply (repaired_integer_index 3 (rawEntry (Fin (inject_Z (-5))) (Fin 1) "cut") (-5)).
  - lia.
  - reflexivity.
  - vm_compute. reflexivity.
Defined.

(** An integral index that is already inside the clip set is kept. *)
Theorem index_in_range_unchanged (n : nat) (item : json) (z : Z) (d : EditDecision) :
  (0 <= z < Z.of_nat n)%Z ->
  prop item "clipIndex" = Some (JNumber (Fin (inject_Z z))) ->
  repairItem n item = Some d ->
  exists r, clipIndex d = Fin r /\ (r == inject_Z z)%Q.
Proof.
  intros Hz Hci Hrep.
  apply repairItem_Some in Hrep as (ci & Hci' & _ & _ & _ & ->).
  rewrite Hci in Hci'. injection Hci' as <-.
  destruct (rem_abs_integer z n) as (r & Hr & Heq); [lia|].
  exists r. split; [exact Hr|].
  rewrite Heq, Z.abs_eq, Z.mod_small by lia. reflexivity.
Qed.

Lemma index_in_range_unchanged_witness :
  exists r, clipIndex {| clipIndex := Fin 2; duration := Fin 1; description := "cut" |} = Fin r
            /\ (r == inject_Z 2)%Q.
Proof.
  apply (index_in_range_unchanged 3 (rawEntry (Fin (inject_Z 2)) (Fin 1) "cut") 2).
  - lia.
  - reflexivity.
  - vm_compute. reflexivity.
Defined.

Lemma rem_zero_divisor (x : number) : rem x (of_nat 0) = NaN.
Proof. destruct x; reflexivity. Qed.

(** With an empty clip set every returned decision has the index NaN. *)
Theorem empty_clip_set_gives_NaN (response : json) (ds : list EditDecision) :
  createVideoSequence (Some response) 0 = Ok ds ->
  Forall (fun d => clipIndex d = NaN) ds.
Proof.
  intros Hok. apply createVideoSequence_Ok in Hok as (_ & -> & _).
  apply List.Forall_forall. intros d Hin.
  apply mapFilter_In in Hin as (item & _ & Hrep).
  apply repairItem_Some in Hrep as (ci & _ & _ & _ & _ & ->).
  apply rem_zero_divisor.
Qed.

Lemma empty_clip_set_gives_NaN_witness :
  Forall (fun d => clipIndex d = NaN)
         [{| clipIndex := NaN; duration := Fin 1; description := "cut" |}].
Proof.
  apply (empty_clip_set_gives_NaN (JArray [rawEntry (Fin 1) (Fin 1) "cut"])).
  vm_compute. reflexivity.
Defined.

Lemma repairItem_None_iff (n : nat) (item : json) :
  repairItem n item = None <-> discardable item.
Proof.
  split; [|apply discardable_repairItem].
  unfold repairItem, discardable.
  destruct (prop item "clipIndex") as [[| |ci| | |]|];
    try (intros _; left; simpl; discriminate).
  destruct (prop item "duration") as [[| |du| | |]|];
    try (intros _; right; left; simpl; discriminate).
  destruct (prop item "description") as [[| | |de| |]|];
    try (intros _; right; right; right; simpl; discriminate).
  destruct (le du zero) eqn:E; [|discriminate].
  intros _. right. right. left. eauto.
Qed.

Lemma mapFilter_nil_iff (n : nat) (items : list json) :
  mapFilter n items = [] <-> Forall discardable items.
Proof.
  induction items as [|x xs IH]; simpl.
  - split; [constructor|reflexivity].
  - destruct (repairItem n x) as [d|] eqn:E.
    + split; [discriminate|]. intros H. inversion H as [|? ? Hx _]; subst.
      apply (discardable_repairItem n) in Hx. congruence.
    + rewrite IH. split.
      * intros H. constructor; [now apply (repairItem_None_iff n)|exact H].
      * intros H. now inversion H.
Qed.

(** On an array the call fails exactly when every entry is rejected by the
    structural checks, with the no-valid-sequence message, which the catch
    block passes on unchanged; otherwise it returns a non-empty list. *)
Theorem array_outcome (n : nat) (items : list json) :
  (Forall discardable items ->
   createVideoSequence (Some (JArray items)) n = Throw msg_no_sequence)
  /\ (forall item, In item items -> ~ discardable item ->
      exists ds, createVideoSequence (Some (JArray items)) n = Ok ds /\ ds <> []).
Proof.
  unfold createVideoSequence, tryBody. simpl. split.
  - intros H. apply (mapFilter_nil_iff n) in H. rewrite H. simpl.
    vm_compute. reflexivity.
  - intros item Hin Hnd.
    destruct (mapFilter n items) as [|d ds] eqn:E.
    + apply mapFilter_nil_iff in E. rewrite List.Forall_forall in E.
      exfalso. apply Hnd. now apply E.
    + simpl. exists (d :: ds). split; [reflexivity|discriminate].
Qed.

Lemma array_outcome_witness :
  createVideoSequence (Some (JArray [JNull; JString "cut"])) 3 = Throw msg_no_sequence.
Proof.
  apply (proj1 (array_outcome 3 [JNull; JString "cut"])).
  apply List.Forall_cons; [left; simpl; discriminate|].
  apply List.Forall_cons; [left; simpl; discriminate|].
  apply List.Forall_nil.
Defined.

Lemma mapFilter_all_kept (n : nat) (items : list json) :
  Forall (fun item => ~ discardable item) items ->
  length (mapFilter n items) = length items
  /\ forall i item d,
      items !! i = Some item -> mapFilter n items !! i = Some d ->
      repairItem n item = Some d.
Proof.
  induction 1 as [|x xs Hx Hxs IH]; simpl.
  - split; [reflexivity|]. intros i item d Hi. destruct i; discriminate.
  - destruct (repairItem n x) as [d0|] eqn:E.
    2:{ apply repairItem_None_iff in E. contradiction. }
    destruct IH as [Hlen Hidx]. simpl. split; [now rewrite Hlen|].
    intros [|i] item d; simpl.
    + intros [= <-] [= <-]. exact E.
    + apply Hidx.
Qed.

(** A response whose entries all pass the structural checks comes back entry
    for entry: as many decisions as entries, in the same order, each with
    the duration and description of its entry. *)
Theorem accepted_entries_kept_in_order (n : nat) (items : list json) :
  items <> [] ->
  Forall (fun item => ~ discardable item) items ->
  exists ds,
    createVideoSequence (Some (JArray items)) n = Ok ds
    /\ length ds = length items
    /\ forall i item d,
        items !! i = Some item -> ds !! i = Some d ->
        prop item "duration" = Some (JNumber (duration d))
        /\ prop item "description" = Some (JString (description d)).
Proof.
  intros Hne Hall.
  destruct (mapFilter_all_kept n items Hall) as [Hlen Hidx].
  exists (mapFilter n items). repeat split.
  - unfold createVideoSequence, tryBody. simpl.
    destruct (mapFilter n items) as [|d ds] eqn:E; [|reflexivity].
    destruct items; [congruence|discriminate].
  - exact Hlen.
  - pose proof (Hidx i item d H H0) as Hrep.
    now apply repairItem_Some in Hrep as (ci & _ & Hdu & _ & _ & _).
  - pose proof (Hidx i item d H H0) as Hrep.
    now apply repairItem_Some in Hrep as (ci & _ & _ & Hde & _ & _).
Qed.

Lemma accepted_entries_kept_in_order_witness :
  exists ds,
    createVideoSequence
      (Some (JArray [rawEntry (Fin 4) (Fin 2) "a"; rawEntry (Fin 0) (Fin 3) "b"])) 3 = Ok ds
    /\ length ds = length [rawEntry (Fin 4) (Fin 2) "a"; rawEntry (Fin 0) (Fin 3) "b"]
    /\ forall i item d,
        [rawEntry (Fin 4) (Fin 2) "a"; rawEntry (Fin 0) (Fin 3) "b"] !! i = Some item ->
        ds !! i = Some d ->
        prop item "duration" = Some (JNumber (duration d))
        /\ prop item "description" = Some (JString (description d)).
Proof.
  apply accepted_entries_kept_in_order.
  - discriminate.
  - apply List.Forall_cons.
    { intros H. apply (discardable_repairItem 3) in H. vm_compute in H. discriminate. }
    apply List.Forall_cons.
    { intros H. apply (discardable_repairItem 3) in H. vm_compute in H. discriminate. }
    apply List.Forall_nil.
Defined.

End ValidatorIndices.

(** ** The in-flight registry: bookkeeping *)

Section RegistryBookkeeping.
Import VideoAnalysisService.

(** Every message posted to the worker belongs to a call that is either
    still in flight or settled: in a reachable state the in-flight tasks
    and the settled promises together are as many as the posted messages,
    one per handle handed out. *)
Theorem posted_in_flight_or_settled (st : State) :
  reachable st ->
  length (posted st) = nextHandle st
  /\ (base.size (runningTasks st) + length (settled st))%nat = length (posted st).
Proof.
  induction 1 as [|canCreate f st Hr [IH1 IH2]|event st Hr [IH1 IH2]].
  - split; reflexivity.
  - unfold analyzeVideoContent, getWorker.
    destruct (worker st) eqn:Hw; simpl.
    + destruct (bool_decide _) eqn:E; simpl; [auto|].
      apply bool_decide_eq_false in E.
      rewrite length_app, map_size_insert_None; simpl.
      * split; lia.
      * destruct (runningTasks st !! fileIdOf f) eqn:El; [|reflexivity].
        exfalso. apply E. eauto.
    + destruct canCreate; simpl; [|auto].
      destruct (bool_decide _) eqn:E; simpl; [auto|].
      apply bool_decide_eq_false in E.
      rewrite length_app, map_size_insert_None; simpl.
      * split; lia.
      * destruct (runningTasks st !! fileIdOf f) eqn:El; [|reflexivity].
        exfalso. apply E. eauto.
  - unfold workerOnMessage.
    destruct (runningTasks st !! msgFileId event) as [h|] eqn:E; simpl; [|auto].
    split; [exact IH1|].
    rewrite length_app. simpl.
    pose proof (map_size_delete_Some (msgFileId event) (runningTasks st)) as Hd.
    assert (Hs : is_Some (runningTasks st !! msgFileId event)) by eauto.
    specialize (Hd Hs).
    assert (Hpos : (0 < base.size (runningTasks st))%nat).
    { destruct (base.size (runningTasks st)) eqn:Ez; [|lia].
      apply map_size_empty_inv in Ez. rewrite Ez, lookup_empty in E. discriminate. }
    lia.
Qed.

Lemma posted_in_flight_or_settled_witness :
  length (posted (snd (analyzeVideoContent true clipFile initialState)))
  = nextHandle (snd (analyzeVideoContent true clipFile initialState))
  /\ (base.size (runningTasks (snd (analyzeVideoContent true clipFile initialState)))
      + length (settled (snd (analyzeVideoContent true clipFile initialState))))%nat
     = length (posted (snd (analyzeVideoContent true clipFile initialState))).
Proof.
  apply posted_in_flight_or_settled. apply reach_submit, reach_init.
Defined.

Lemma handlesConsistent_submit (canCreate : bool) (f : File) (st : State) :
  handlesConsistent st -> handlesConsistent (snd (analyzeVideoContent canCreate f st)).
Proof.
  intros (Ha & Hb & Hc & Hd).
  assert (Hsame : forall w,
             handlesConsistent {| worker := w; runningTasks := runningTasks st;
                                  posted := posted st; settled := settled st;
                                  nextHandle := nextHandle st |}).
  { intros w. repeat split; simpl; eauto; now apply Hd. }
  unfold analyzeVideoContent, getWorker.
  assert (Hins : runningTasks st !! fileIdOf f = None ->
                 forall w p,
                   handlesConsistent
                     {| worker := w;
                        runningTasks := <[fileIdOf f := nextHandle st]> (runningTasks st);
                        posted := p; settled := settled st;
                        nextHandle := S (nextHandle st) |}).
  { intros Hnone w p. repeat split; simpl.
    - intros k h Hk. apply lookup_insert_Some in Hk as [[_ <-]|[_ Hk]]; [lia|].
      apply Ha in Hk. lia.
    - intros k1 k2 h H1 H2.
      apply lookup_insert_Some in H1 as [[<- <-]|[Hn1 H1]];
        apply lookup_insert_Some in H2 as [[<- E2]|[Hn2 H2]]; try reflexivity.
      + apply Ha in H2. lia.
      + apply Ha in H1. lia.
      + eauto.
    - exact Hc.
    - apply Hd in H. lia.
    - intros k Hk. apply lookup_insert_Some in Hk as [[_ E]|[_ Hk]].
      + apply Hd in H. lia.
      + apply Hd in H. now apply (proj2 H k). }
  destruct (worker st) eqn:Hw; simpl.
  - destruct (bool_decide _) eqn:E; simpl.
    + repeat split; eauto; now apply Hd.
    + apply bool_decide_eq_false in E. apply Hins.
      destruct (runningTasks st !! fileIdOf f); [exfalso; apply E; eauto|reflexivity].
  - destruct canCreate; simpl; [|apply Hsame].
    destruct (bool_decide _) eqn:E; simpl; [apply Hsame|].
    apply bool_decide_eq_false in E. apply Hins.
    destruct (runningTasks st !! fileIdOf f); [exfalso; apply E; eauto|reflexivity].
Qed.

Lemma handlesConsistent_reply (event : WorkerMessage) (st : State) :
  handlesConsistent st -> handlesConsistent (workerOnMessage event st).
Proof.
  intros (Ha & Hb & Hc & Hd). unfold workerOnMessage.
  destruct (runningTasks st !! msgFileId event) as [h0|] eqn:E.
  2:{ repeat split; eauto; now apply Hd. }
  repeat split; simpl.
  - intros k h Hk. apply lookup_delete_Some in Hk as [_ Hk]. eauto.
  - intros k1 k2 h H1 H2.
    apply lookup_delete_Some in H1 as [_ H1].
    apply lookup_delete_Some in H2 as [_ H2]. eauto.
  - rewrite map_app. simpl. apply NoDup_app. repeat split.
    + exact Hc.
    + intros h Hin Hin0. apply list_elem_of_In in Hin.
      apply list_elem_of_singleton in Hin0 as ->.
      apply Hd in Hin as [_ Hin]. now apply (Hin (msgFileId event)).
    + apply NoDup_singleton.
  - simpl in H. rewrite map_app in H. apply in_app_or in H as [H|[<-|[]]].
    + now apply Hd.
    + eauto.
  - simpl in H. rewrite map_app in H. apply in_app_or in H as [H|[<-|[]]].
    + intros k Hk. apply lookup_delete_Some in Hk as [_ Hk].
      apply Hd in H. now apply (proj2 H k).
    + intros k Hk. apply lookup_delete_Some in Hk as [Hne Hk].
      apply Hne. eauto.
Qed.

(** No promise is settled twice: in a reachable state the settled handles
    are pairwise distinct and none of them is still in flight; in-flight
    handles belong to one key each. *)
Theorem promises_settled_once (st : State) :
  reachable st -> handlesConsistent st.
Proof.
  induction 1 as [|canCreate f st Hr IH|event st Hr IH].
  - repeat split; simpl; intros;
      try (rewrite lookup_empty in *; discriminate);
      try contradiction; constructor.
  - now apply handlesConsistent_submit.
  - now apply handlesConsistent_reply.
Qed.

Lemma reachable_run (events : list registryEvent) : forall st,
  reachable st -> reachable (run events st).
Proof.
  unfold run. induction events as [|e events IH]; intros st Hr; simpl; [exact Hr|].
  apply IH. destruct e; simpl; [now apply reach_submit|now apply reach_reply].
Qed.

Lemma promises_settled_once_witness :
  handlesConsistent busyState
  /\ map fst (settled busyState) = [0; 1]%nat
  /\ runningTasks busyState !! fileIdOf clipFile = Some 2%nat
  /\ runningTasks busyState !! fileIdOf largeClip = Some 3%nat
  /\ nextHandle busyState = 4%nat.
Proof.
  split.
  - apply promises_settled_once. apply reachable_run, reach_init.
  - repeat split; vm_compute; reflexivity.
Defined.

Lemma registration_kept_by_step (k : string) (h : nat) (e : registryEvent) (st : State) :
  runningTasks st !! k = Some h ->
  ~ repliesTo k e ->
  runningTasks (step e st) !! k = Some h.
Proof.
  intros Hk Hne. destruct e as [canCreate f|message]; simpl in *.
  - unfold analyzeVideoContent, getWorker.
    assert (Hins : bool_decide (is_Some (runningTasks st !! fileIdOf f)) = false ->
                   <[fileIdOf f := nextHandle st]> (runningTasks st) !! k = Some h).
    { intros E. apply bool_decide_eq_false in E.
      rewrite lookup_insert_ne; [exact Hk|].
      intros Heq. apply E. rewrite Heq. eauto. }
    destruct (worker st); simpl.
    + destruct (bool_decide _) eqn:E; simpl; [exact Hk|now apply Hins].
    + destruct canCreate; simpl; [|exact Hk].
      destruct (bool_decide _) eqn:E; simpl; [exact Hk|now apply Hins].
  - unfold workerOnMessage.
    destruct (runningTasks st !! msgFileId message); simpl; [|exact Hk].
    rewrite lookup_delete_ne; [exact Hk|exact Hne].
Qed.

Lemma registration_kept (k : string) (h : nat) (events : list registryEvent) : forall st,
  runningTasks st !! k = Some h ->
  Forall (fun e => ~ repliesTo k e) events ->
  runningTasks (run events st) !! k = Some h.
Proof.
  unfold run. induction events as [|e events IH]; intros st Hk Hall; simpl; [exact Hk|].
  inversion Hall as [|? ? He Hes]; subst.
  apply IH; [|exact Hes]. now apply registration_kept_by_step.
Qed.

(** The worker's reply is routed to the call that submitted the clip,
    whatever happened in between: after [analyzeVideoContent] accepted a
    file, and after any further calls and any replies for other keys, the
    reply carrying the file's key settles the promise of that very call,
    with the worker's analysis or error; it frees the key, leaves the other
    tasks in flight and posts nothing. *)
Theorem reply_settles_submitter (canCreate : bool) (f : File) (st st1 : State)
    (h : nat) (events : list registryEvent) (event : WorkerMessage) :
  analyzeVideoContent canCreate f st = (Pending h, st1) ->
  Forall (fun e => ~ repliesTo (fileIdOf f) e) events ->
  msgFileId event = fileIdOf f ->
  settled (workerOnMessage event (run events st1))
  = (settled (run events st1)
     ++ [(h, if success event then Resolved (analysis event)
             else Rejected (error event))])%list
  /\ runningTasks (workerOnMessage event (run events st1)) !! fileIdOf f = None
  /\ (forall k, k <> fileIdOf f ->
                runningTasks (workerOnMessage event (run events st1)) !! k
                = runningTasks (run events st1) !! k)
  /\ posted (workerOnMessage event (run events st1)) = posted (run events st1).
Proof.
  intros Hsub Hall Hid.
  apply submission_registers in Hsub as (_ & Hreg & _).
  pose proof (registration_kept _ _ events st1 Hreg Hall) as Hk.
  unfold workerOnMessage. rewrite Hid, Hk. simpl.
  rewrite lookup_delete_eq. repeat split.
  intros k Hne. now rewrite lookup_delete_ne.
Qed.

Lemma reply_settles_submitter_witness :
  settled (workerOnMessage failureReply
             (run [Submitted true largeClip; Submitted true clipFile]
                  (snd (analyzeVideoContent true clipFile initialState))))
  = ([] ++ [(0%nat, Rejected (Some "analyzeSobel is not defined"))])%list
  /\ runningTasks (workerOnMessage failureReply
                     (run [Submitted true largeClip; Submitted true clipFile]
                          (snd (analyzeVideoContent true clipFile initialState))))
     !! fileIdOf largeClip = Some 1%nat.
Proof.
  destruct (reply_settles_submitter true clipFile initialState
              (snd (analyzeVideoContent true clipFile initialState)) 0%nat
              [Submitted true largeClip; Submitted true clipFile] failureReply)
    as (H1 & _ & H3 & _).
  - reflexivity.
  - repeat constructor; simpl; tauto.
  - reflexivity.
  - split; [exact H1|].
    rewrite H3; [vm_compute; reflexivity|vm_compute; discriminate].
Defined.

Lemma resubmission_after_reply_witness :
  exists h st',
    analyzeVideoContent true clipFile
      (workerOnMessage failureReply (snd (analyzeVideoContent true clipFile initialState)))
    = (Pending h, st').
Proof.
  apply resubmission_after_reply; reflexivity.
Defined.

End RegistryBookkeeping.

(** ** The video worker: metrics *)

Section WorkerMetrics.
Import VideoAnalysisService.

(** The category depends on the set of class labels only: order,
    repetitions and scores of the detections do not matter. *)
Theorem classifyObjects_by_label_set (objects1 objects2 : list DetectedObject) :
  (forall c, labelled objects1 c <-> labelled objects2 c) ->
  classifyObjects objects1 = classifyObjects objects2.
Proof.
  intros H.
  assert (E : (list_to_set (map class objects1) : gset string)
              = list_to_set (map class objects2)).
  { apply set_eq. intros c. rewrite !elem_of_list_to_set, !list_elem_of_In. apply H. }
  unfold classifyObjects. now rewrite E.
Qed.

Lemma classifyObjects_by_label_set_witness :
  classifyObjects [{| class := "dog"; score := 9 # 10 |};
                   {| class := "bus"; score := 5 # 10 |}]
  = classifyObjects [{| class := "bus"; score := 1 # 10 |};
                     {| class := "dog"; score := 2 # 10 |};
                     {| class := "bus"; score := 3 # 10 |}].
Proof.
  apply classifyObjects_by_label_set. intros c. unfold labelled. simpl. tauto.
Defined.

Lemma pixels_length (n : nat) : forall (bytes : list Z),
  length bytes = (4 * n)%nat -> length (pixels bytes) = n.
Proof.
  induction n as [|n IH]; intros bytes Hlen.
  - destruct bytes; [reflexivity|discriminate].
  - destruct bytes as [|r [|g [|b [|a rest]]]]; simpl in Hlen; try lia.
    simpl. f_equal. apply IH. lia.
Qed.

Lemma pixels_bytes (bytes : list Z) :
  Forall (fun v => (0 <= v <= 255)%Z) bytes ->
  Forall (fun p => let '(r, g, b) := p in (0 <= r + g + b <= 765)%Z) (pixels bytes).
Proof.
  revert bytes. fix IH 2. intros bytes H.
  destruct H as [|r ? Hr [|g ? Hg [|b ? Hb [|a rest Ha Hrest]]]];
    simpl; try constructor.
  - lia.
  - apply IH. exact Hrest.
Qed.

Lemma brightness_sum_bounds (ps : list (Z * Z * Z)) :
  Forall (fun p => let '(r, g, b) := p in (0 <= r + g + b <= 765)%Z) ps ->
  forall acc,
    (acc <= fold_left (fun acc p => let '(r, g, b) := p in
                                    acc + inject_Z (r + g + b) / 3) ps acc)%Q
    /\ (fold_left (fun acc p => let '(r, g, b) := p in
                                acc + inject_Z (r + g + b) / 3) ps acc
        <= acc + 255 * inject_Z (Z.of_nat (length ps)))%Q.
Proof.
  induction 1 as [|[[r g] b] ps Hp Hps IH]; intros acc.
  - simpl. split; [apply Qle_refl|]. rewrite Qmult_0_r, Qplus_0_r. apply Qle_refl.
  - cbn [fold_left length]. destruct (IH (acc + inject_Z (r + g + b) / 3)%Q) as [Hlo Hhi].
    assert (H0 : (0 <= inject_Z (r + g + b))%Q).
    { replace 0%Q with (inject_Z 0) by reflexivity. rewrite <- Zle_Qle. lia. }
    assert (H1 : (inject_Z (r + g + b) <= 765)%Q).
    { replace 765%Q with (inject_Z 765) by reflexivity. rewrite <- Zle_Qle. lia. }
    set (x := inject_Z (r + g + b)) in *. clearbody x.
    rewrite Nat2Z.inj_succ. unfold Z.succ. rewrite inject_Z_plus.
    change (inject_Z 1) with 1%Q.
    set (n := inject_Z (Z.of_nat (length ps))) in *.
    set (s := fold_left _ ps _) in *. clearbody n s.
    assert (Hy0 : (0 <= x / 3)%Q) by (apply Qle_shift_div_l; lra).
    assert (Hy1 : (x / 3 <= 255)%Q) by (apply Qle_shift_div_r; lra).
    set (y := (x / 3)%Q) in *. clearbody y. clear -Hlo Hhi Hy0 Hy1.
    split; lra.
Qed.

(** On a frame of whole RGBA pixels with byte channels the brightness lies
    between 0 and 1. *)
Theorem analyzeBrightness_bounds (imageData : ImageData) (n : nat) :
  (0 < n)%nat ->
  length (data imageData) = (4 * n)%nat ->
  Forall (fun v => (0 <= v <= 255)%Z) (data imageData) ->
  (0 <= analyzeBrightness imageData)%Q /\ (analyzeBrightness imageData <= 1)%Q.
Proof.
  intros Hn Hlen Hbytes. unfold analyzeBrightness.
  destruct (brightness_sum_bounds _ (pixels_bytes _ Hbytes) 0%Q) as [Hlo Hhi].
  rewrite (pixels_length n _ Hlen) in Hhi. rewrite Hlen.
  set (s := fold_left _ _ _) in *. clearbody s.
  rewrite Nat2Z.inj_mul, inject_Z_mult. change (inject_Z (Z.of_nat 4)) with 4%Q.
  pose proof (of_nat_positive n Hn) as Hpos.
  set (m := inject_Z (Z.of_nat n)) in *. clearbody m. clear -Hlo Hhi Hpos.
  assert (Hd : (0 < 4 * m / 4)%Q).
  { apply Qlt_shift_div_l; lra. }
  assert (He : (4 * m / 4 == m)%Q) by (field).
  split.
  - apply Qle_shift_div_l; [lra|]. rewrite Qmult_0_l.
    apply Qle_shift_div_l; [exact Hd|]. lra.
  - apply Qle_shift_div_r; [lra|].
    apply Qle_shift_div_r; [exact Hd|]. rewrite He. lra.
Qed.

Lemma analyzeBrightness_bounds_witness :
  (0 <= analyzeBrightness edgeFrame)%Q /\ (analyzeBrightness edgeFrame <= 1)%Q.
Proof.
  apply (analyzeBrightness_bounds edgeFrame 9).
  - lia.
  - reflexivity.
  - unfold edgeFrame, grayPixel. simpl. repeat (constructor; [lia|]). constructor.
Defined.

Lemma pixelDifference_same (bytes : list Z) (i : nat) :
  pixelDifference bytes bytes i = None \/ pixelDifference bytes bytes i = Some 0%Z.
Proof.
  unfold pixelDifference.
  destruct (bytes !! i) as [r|]; [|now left].
  destruct (bytes !! (i + 1)%nat) as [g|]; [|now left].
  destruct (bytes !! (i + 2)%nat) as [b|]; [|now left].
  right. now rewrite !Z.sub_diag.
Qed.

Lemma motionLoop_same (bytes : list Z) : forall fuel i diff,
  diff = None \/ diff = Some 0%Z ->
  motionLoop fuel bytes bytes i diff = None
  \/ motionLoop fuel bytes bytes i diff = Some 0%Z.
Proof.
  induction fuel as [|fuel IH]; intros i diff Hd; simpl; [exact Hd|].
  destruct (Nat.ltb i (length bytes)); [|exact Hd].
  apply IH.
  destruct Hd as [->| ->]; [now left|].
  destruct (pixelDifference_same bytes i) as [-> | ->]; [now left|now right].
Qed.

(** Two identical frames show no motion. *)
Theorem calculateMotion_same_frame (frame : ImageData) :
  calculateMotion frame frame = motion_static.
Proof.
  unfold calculateMotion.
  destruct (motionLoop_same (data frame) (length (data frame)) 0%nat (Some 0%Z))
    as [-> | ->]; [now right|reflexivity|].
  set (d := inject_Z (Z.of_nat (length (data frame)) * 3 * 255)).
  assert (H : forall c, (0 <= c)%Q -> Qle_bool (inject_Z 0 / d) c = true).
  { intros c Hc. apply Qle_bool_iff. unfold Qdiv. change (inject_Z 0) with 0%Q.
    now rewrite Qmult_0_l. }
  rewrite !H by (unfold Qle; simpl; lia). reflexivity.
Qed.

End WorkerMetrics.

(** ** Energy segmentation: segment shape and labels *)

Section EnergyShape.
Import AudioAnalysis.

Context {arith : DoubleArith}.
Variable Math_sqrt : Q -> Q.

Lemma seconds_lt (a b sr : nat) :
  (0 < sr)%nat -> (a < b)%nat -> (seconds a sr < seconds b sr)%Q.
Proof.
  intros Hsr Hab. unfold seconds, Qdiv.
  apply Qmult_lt_compat_r.
  - apply Qinv_lt_0_compat. now apply of_nat_positive.
  - rewrite <- Zlt_Qlt. lia.
Qed.

Lemma windowLoop_proper (data : list Q) (sr : nat) :
  (0 < sr)%nat ->
  forall fuel i,
    Forall (fun x => (startTime x < endTime x)%Q)
           (map snd (windowLoop Math_sqrt fuel data sr i)).
Proof.
  intros Hsr. induction fuel as [|fuel IH]; intros i; simpl; [constructor|].
  destruct (Nat.ltb i (length data)) eqn:E; [|constructor].
  apply Nat.ltb_lt in E. simpl. constructor; [|apply IH].
  simpl. apply seconds_lt; [exact Hsr|lia].
Qed.

Lemma mergeLoop_proper rest : forall current merged e,
  Forall (fun x => (startTime x < endTime x)%Q) merged ->
  Forall (fun x => (startTime x < endTime x)%Q) (current :: rest) ->
  chained (startTime current) (current :: rest) e ->
  Forall (fun x => (startTime x < endTime x)%Q) (mergeLoop rest current merged).
Proof.
  induction rest as [|next rest IH]; intros current merged e Hm Hcr Hch; simpl.
  - apply Forall_app. split; [exact Hm|].
    inversion Hcr; subst. now constructor.
  - inversion Hcr as [|? ? Hc Hr]; subst. inversion Hr as [|? ? Hn Hr']; subst.
    destruct Hch as (_ & Hcn & Hch).
    destruct (Intensity_eqb (intensity next) (intensity current)).
    + apply (IH _ _ e); [exact Hm| |].
      * constructor; [|exact Hr']. simpl.
        apply Qlt_trans with (endTime current); [exact Hc|].
        rewrite <- Hcn. exact Hn.
      * simpl. split; [reflexivity|exact Hch].
    + apply (IH _ _ e).
      * apply Forall_app. split; [exact Hm|]. now constructor.
      * exact Hr.
      * simpl. split; [reflexivity|exact Hch].
Qed.

(** Every returned segment is a proper interval: it starts before it ends. *)
Theorem segments_proper (buffer : AudioBuffer) (segment : EnergySegment) :
  (0 < sampleRate buffer)%nat ->
  In segment (analyzeEnergy Math_sqrt buffer) ->
  (startTime segment < endTime segment)%Q.
Proof.
  intros Hsr. revert segment. apply List.Forall_forall.
  unfold analyzeEnergy.
  destruct (Nat.eqb _ 0); [constructor|].
  set (cl := classify _ _ _).
  pose proof (placeholderSegments_chained Math_sqrt buffer Hsr) as Hch.
  assert (Htimes : forall i x, startTime (cl i x) = startTime x
                               /\ endTime (cl i x) = endTime x).
  { intros i x. unfold cl, classify.
    destruct (_ !! i); [|now split].
    destruct (geThreshold _ _); [now split|].
    destruct (geThreshold _ _); now split. }
  apply (chained_imap cl) in Hch; [|exact Htimes].
  assert (Hp : Forall (fun x => (startTime x < endTime x)%Q)
                      (imap cl (placeholderSegments Math_sqrt buffer))).
  { apply Forall_imap. intros i x Hx.
    destruct (Htimes i x) as [-> ->].
    pose proof (windowLoop_proper (channelData buffer) _ Hsr
                  (length (channelData buffer)) 0%nat) as Hw.
    rewrite List.Forall_forall in Hw. apply Hw.
    apply list_elem_of_In. eapply list_elem_of_lookup_2. exact Hx. }
  destruct (imap cl (placeholderSegments Math_sqrt buffer)) as [|first rest];
    [constructor|].
  apply (mergeLoop_proper rest first [] (bufferDuration buffer)).
  - constructor.
  - exact Hp.
  - destruct Hch as [_ Hch]. simpl. split; [reflexivity|exact Hch].
Qed.

Lemma insertSorted_In (x y : Q) (l : list Q) :
  In y (insertSorted x l) -> y = x \/ In y l.
Proof.
  induction l as [|z l IH]; simpl.
  - intros [<-|[]]. now left.
  - destruct (Qle_bool x z); simpl.
    + intros [<-|H]; [now left|now right].
    + intros [<-|H]; [right; now left|].
      destruct (IH H) as [->|Hin]; [now left|right; now right].
Qed.

Lemma sortAscending_In (y : Q) (l : list Q) :
  In y (sortAscending l) -> In y l.
Proof.
  induction l as [|x l IH]; simpl; [tauto|].
  intros H. apply insertSorted_In in H as [->|H]; [now left|right; now apply IH].
Qed.

Lemma mergeLoop_keeps_labels rest : forall current merged x,
  In x (merged ++ current :: rest) ->
  exists y, In y (mergeLoop rest current merged) /\ intensity y = intensity x.
Proof.
  induction rest as [|next rest IH]; intros current merged x Hin; simpl.
  - eauto.
  - destruct (Intensity_eqb (intensity next) (intensity current)) eqn:E.
    + apply Intensity_eqb_eq in E.
      apply in_app_or in Hin as [Hin|[<-|[<-|Hin]]].
      * apply IH. apply in_or_app. now left.
      * destruct (IH (withEndTime current (endTime next)) merged
                     (withEndTime current (endTime next))) as (y & Hy & Hi).
        { apply in_or_app. right. now left. }
        exists y. split; [exact Hy|exact Hi].
      * destruct (IH (withEndTime current (endTime next)) merged
                     (withEndTime current (endTime next))) as (y & Hy & Hi).
        { apply in_or_app. right. now left. }
        exists y. split; [exact Hy|]. rewrite Hi. simpl. now symmetry.
      * apply IH. apply in_or_app. right. now right.
    + apply IH. rewrite <- app_assoc. exact Hin.
Qed.

(** A non-empty buffer always has a segment labelled [high]: the window
    whose energy is the upper threshold itself meets it. *)
Theorem some_segment_is_high (buffer : AudioBuffer) :
  (0 < sampleRate buffer)%nat ->
  channelData buffer <> [] ->
  exists segment,
    In segment (analyzeEnergy Math_sqrt buffer) /\ intensity segment = high.
Proof.
  intros _ Hd. unfold analyzeEnergy.
  set (energyLevels := energyLevelsOf Math_sqrt buffer).
  set (segments := placeholderSegments Math_sqrt buffer).
  assert (Hlen : length energyLevels = length segments).
  { unfold energyLevels, segments, energyLevelsOf, placeholderSegments.
    now rewrite !length_map. }
  assert (E : length energyLevels <> 0%nat).
  { unfold energyLevels, energyLevelsOf.
    destruct (channelData buffer); [congruence|simpl; discriminate]. }
  apply Nat.eqb_neq in E. rewrite E. apply Nat.eqb_neq in E.
  set (sortedEnergy := sortAscending energyLevels).
  destruct (lookup_lt_is_Some_2 sortedEnergy (highIndex (length sortedEnergy)))
    as [t Ht].
  { apply highIndex_lt. unfold sortedEnergy. rewrite sortAscending_length. lia. }
  rewrite Ht.
  assert (Hin : In t energyLevels).
  { apply sortAscending_In. apply list_elem_of_In.
    eapply list_elem_of_lookup_2. exact Ht. }
  apply list_elem_of_In, list_elem_of_lookup_1 in Hin as [j Hj].
  destruct (lookup_lt_is_Some_2 segments j) as [seg Hseg].
  { rewrite <- Hlen. eapply lookup_lt_Some. exact Hj. }
  set (cl := classify _ _ _).
  assert (Hcl : imap cl segments !! j = Some (withIntensity seg high)).
  { rewrite list_lookup_imap, Hseg. simpl. unfold cl, classify. rewrite Hj.
    simpl. assert (Hle : Qle_bool t t = true) by (apply Qle_bool_iff, Qle_refl).
    now rewrite Hle. }
  destruct (imap cl segments) as [|first rest] eqn:Ei; [discriminate|].
  destruct (mergeLoop_keeps_labels rest first [] (withIntensity seg high))
    as (y & Hy & Hi).
  { change (In (withIntensity seg high) (first :: rest)).
    apply list_elem_of_In. eapply list_elem_of_lookup_2. exact Hcl. }
  exists y. split; [exact Hy|exact Hi].
Qed.

End EnergyShape.

Section EnergyShapeExamples.
Import AudioAnalysis.
#[local] Existing Instance exactArith.

Lemma segments_proper_witness : (2 # 2 < 6 # 2)%Q.
Proof.
  apply (segments_proper sqrtOnUnit steppedBuffer
           {| startTime := 2 # 2; endTime := 6 # 2; intensity := high |}).
  - simpl. lia.
  - vm_compute. right. left. reflexivity.
Defined.

Lemma some_segment_is_high_witness :
  exists segment,
    In segment (analyzeEnergy sqrtOnUnit silentBuffer) /\ intensity segment = high.
Proof.
  apply some_segment_is_high; [simpl; lia|discriminate].
Defined.

End EnergyShapeExamples.

(** ** Beat detection *)

Section Beats.
Import AudioAnalysis AudioBeats.

Context {arith : DoubleArith}.

Lemma peakLoop_bounds (data : list Q) (sr : nat) : forall fuel i p,
  In p (peakLoop fuel data sr i) ->
  (i <= p < length data)%nat /\ exceeds (data !! p) = true.
Proof.
  induction fuel as [|fuel IH]; intros i p; simpl; [tauto|].
  destruct (Nat.ltb i (length data)) eqn:E; [|intros []].
  apply Nat.ltb_lt in E.
  destruct (exceeds (data !! i)) eqn:Ex.
  - intros [<-|Hin]; [split; [lia|exact Ex]|].
    apply IH in Hin as [Hb Hp]. split; [lia|exact Hp].
  - intros Hin. apply IH in Hin as [Hb Hp]. split; [lia|exact Hp].
Qed.

Lemma peakLoop_spaced (data : list Q) (sr : nat) : forall fuel i,
  spaced (skipSamples sr) (peakLoop fuel data sr i).
Proof.
  induction fuel as [|fuel IH]; intros i; simpl; [exact I|].
  destruct (Nat.ltb i (length data)); [|exact I].
  destruct (exceeds (data !! i)); [|apply IH].
  pose proof (IH (i + skipSamples sr + 1)%nat) as Hs.
  pose proof (peakLoop_bounds data sr fuel (i + skipSamples sr + 1)%nat) as Hb.
  destruct (peakLoop fuel data sr (i + skipSamples sr + 1)) as [|q rest];
    [exact I|].
  split; [|exact Hs].
  destruct (Hb q) as [Hq _]; [now left|]. lia.
Qed.

Lemma spaced_lookup (gap : nat) (l : list nat) : forall j p q,
  spaced gap l -> l !! j = Some p -> l !! (S j) = Some q -> (p + gap < q)%nat.
Proof.
  induction l as [|a l IH]; intros j p q Hs Hp Hq; [discriminate|].
  destruct l as [|b l]; [destruct j; discriminate|].
  destruct Hs as [Hab Hs]. destruct j as [|j]; simpl in *.
  - injection Hp as <-. injection Hq as <-. exact Hab.
  - eapply IH; eauto.
Qed.

(** Every detected peak is a sample above the threshold, and consecutive
    peaks are more than a tenth of a second of samples apart. *)
Theorem peaks_above_threshold_and_apart (renderedBuffer : AudioBuffer) :
  (forall p, In p (peaksOf renderedBuffer) ->
             exists x, channelData renderedBuffer !! p = Some x
                       /\ (threshold < x)%Q)
  /\ (forall j p q,
        peaksOf renderedBuffer !! j = Some p ->
        peaksOf renderedBuffer !! (S j) = Some q ->
        (p + skipSamples (sampleRate renderedBuffer) < q)%nat).
Proof.
  split.
  - intros p Hin. apply peakLoop_bounds in Hin as [_ Hex].
    unfold exceeds in Hex.
    destruct (channelData renderedBuffer !! p) as [x|]; [|discriminate].
    exists x. split; [reflexivity|].
    apply Qnot_le_lt. intros Hle. apply Qle_bool_iff in Hle.
    rewrite Hle in Hex. discriminate.
  - intros j p q. apply spaced_lookup, peakLoop_spaced.
Qed.

Lemma peaks_above_threshold_and_apart_witness :
  (1 + skipSamples (sampleRate clickBuffer) < 5)%nat.
Proof.
  apply (proj2 (peaks_above_threshold_and_apart clickBuffer) 0%nat 1%nat 5%nat);
    reflexivity.
Defined.

Lemma peakLoop_covers (data : list Q) (sr : nat) : forall fuel start i,
  (length data - start <= fuel)%nat ->
  (start <= i < length data)%nat ->
  exceeds (data !! i) = true ->
  exists p, In p (peakLoop fuel data sr start)
            /\ (p <= i <= p + skipSamples sr)%nat.
Proof.
  induction fuel as [|fuel IH]; intros start i Hfuel Hi Hex; [lia|].
  simpl. destruct (Nat.ltb start (length data)) eqn:E.
  2:{ apply Nat.ltb_ge in E. lia. }
  destruct (exceeds (data !! start)) eqn:Es.
  - destruct (le_lt_dec i (start + skipSamples sr)) as [Hle|Hgt].
    + exists start. split; [now left|lia].
    + destruct (IH (start + skipSamples sr + 1)%nat i) as (p & Hp & Hb);
        [lia|lia|exact Hex|].
      exists p. split; [now right|exact Hb].
  - assert (Hne : i <> start) by (intros ->; congruence).
    destruct (IH (start + 1)%nat i) as (p & Hp & Hb); [lia|lia|exact Hex|].
    exists p. split; [exact Hp|exact Hb].
Qed.

(** No transient is lost: every sample above the threshold is a peak or
    lies within the skipped stretch right after a peak. *)
Theorem loud_samples_covered (renderedBuffer : AudioBuffer) (i : nat) (x : Q) :
  channelData renderedBuffer !! i = Some x ->
  (threshold < x)%Q ->
  exists p, In p (peaksOf renderedBuffer)
            /\ (p <= i <= p + skipSamples (sampleRate renderedBuffer))%nat.
Proof.
  intros Hi Hx. apply peakLoop_covers.
  - lia.
  - split; [lia|]. eapply lookup_lt_Some. exact Hi.
  - rewrite Hi. simpl.
    destruct (Qle_bool x threshold) eqn:E; [|reflexivity].
    apply Qle_bool_iff in E. exfalso. revert Hx. now apply Qle_not_lt.
Qed.

Lemma loud_samples_covered_witness :
  exists p, In p (peaksOf clickBuffer)
            /\ (p <= 2 <= p + skipSamples (sampleRate clickBuffer))%nat.
Proof.
  apply (loud_samples_covered clickBuffer 2 1%Q).
  - reflexivity.
  - reflexivity.
Defined.

Lemma peakLoop_quiet (data : list Q) (sr : nat) :
  Forall (fun x => (x <= threshold)%Q) data ->
  forall fuel i, peakLoop fuel data sr i = [].
Proof.
  intros Hq. induction fuel as [|fuel IH]; intros i; simpl; [reflexivity|].
  destruct (Nat.ltb i (length data)); [|reflexivity].
  destruct (data !! i) as [x|] eqn:Ex; simpl; [|apply IH].
  pose proof (Forall_lookup_1 _ _ _ _ Hq Ex) as Hx. simpl in Hx.
  apply Qle_bool_iff in Hx. rewrite Hx. simpl. apply IH.
Qed.

(** A buffer with no sample above the threshold gets the default tempo of
    120 and no beats. *)
Theorem quiet_buffer_default_tempo (renderedBuffer : AudioBuffer) :
  Forall (fun x => (x <= threshold)%Q) (channelData renderedBuffer) ->
  analyzeBeats renderedBuffer = {| bpm := 120; beats := [] |}.
Proof.
  intros Hq. unfold analyzeBeats, peaksOf.
  now rewrite (peakLoop_quiet _ _ Hq).
Qed.

(** The beats are in strictly increasing time order, each inside the
    buffer, with confidence 1. *)
Theorem beats_increasing_within_buffer (renderedBuffer : AudioBuffer) :
  (0 < sampleRate renderedBuffer)%nat ->
  (forall j a b,
      beats (analyzeBeats renderedBuffer) !! j = Some a ->
      beats (analyzeBeats renderedBuffer) !! (S j) = Some b ->
      (timestamp a < timestamp b)%Q)
  /\ (forall beat, In beat (beats (analyzeBeats renderedBuffer)) ->
                   (0 <= timestamp beat)%Q
                   /\ (timestamp beat < bufferDuration renderedBuffer)%Q
                   /\ confidence beat = 1%Q).
Proof.
  intros Hsr. unfold analyzeBeats.
  destruct (Nat.ltb (length (peaksOf renderedBuffer)) 2).
  { simpl. split; [intros j a b H; destruct j; discriminate|intros beat []]. }
  simpl. split.
  - intros j a b Ha Hb.
    rewrite list_lookup_fmap in Ha, Hb.
    destruct (peaksOf renderedBuffer !! j) as [p|] eqn:Ep; [|discriminate].
    destruct (peaksOf renderedBuffer !! (S j)) as [q|] eqn:Eq; [|discriminate].
    injection Ha as <-. injection Hb as <-. simpl.
    apply seconds_lt; [exact Hsr|].
    pose proof (spaced_lookup _ _ j p q
                  (peakLoop_spaced (channelData renderedBuffer)
                     (sampleRate renderedBuffer)
                     (length (channelData renderedBuffer)) 0%nat) Ep Eq).
    lia.
  - intros beat Hin. apply in_map_iff in Hin as (p & <- & Hp). simpl.
    apply peakLoop_bounds in Hp as [[_ Hp] _].
    repeat split.
    + unfold seconds. apply Qle_shift_div_l; [now apply of_nat_positive|].
      rewrite Qmult_0_l. replace 0%Q with (inject_Z 0) by reflexivity.
      rewrite <- Zle_Qle. lia.
    + unfold bufferDuration. now apply seconds_lt.
Qed.

End Beats.

Section BeatExamples.
Import AudioAnalysis AudioBeats.
#[local] Existing Instance exactArith.

Lemma quiet_buffer_default_tempo_witness :
  analyzeBeats silentBuffer = {| bpm := 120; beats := [] |}.
Proof.
  apply quiet_buffer_default_tempo.
  unfold silentBuffer. simpl.
  repeat (constructor; [unfold threshold, Qle; simpl; lia|]). constructor.
Defined.

Lemma beats_increasing_within_buffer_witness :
  (1 # 20 < 5 # 20)%Q.
Proof.
  apply (proj1 (beats_increasing_within_buffer clickBuffer ltac:(simpl; lia)) 0%nat
           {| timestamp := 1 # 20; confidence := 1 |}
           {| timestamp := 5 # 20; confidence := 1 |}); reflexivity.
Defined.

(** On doubles the tempo of [threePeakBuffer] is 22 (the quotient is
    22.499999999999996), where exact arithmetic would give 23. *)
Example threePeakBuffer_tempo :
  peaksOf threePeakBuffer = [0; 2; 16]%nat
  /\ bpm (analyzeBeats (H := Binary64.binary64) threePeakBuffer) = 22%Z
  /\ bpm (analyzeBeats (H := exactArith) threePeakBuffer) = 23%Z.
Proof. repeat split; vm_compute; reflexivity. Qed.

End BeatExamples.

(** ** Keys *)

Section Keys.
Import VideoAnalysisService VideoUtils.

Lemma append_cons (c : ascii) (s t : string) :
  String.append (String c s) t = String c (String.append s t).
Proof. reflexivity. Qed.

Lemma noDash_append_dash (a b : string) : ~ noDash (a ++ String "-" b).
Proof.
  induction a as [|c a IH].
  - intros [H _]. now apply H.
  - rewrite append_cons. intros [_ H]. now apply IH.
Qed.

Lemma split_at_dash (s1 s2 d1 d2 : string) :
  noDash d1 -> noDash d2 ->
  s1 ++ String "-" d1 = s2 ++ String "-" d2 -> s1 = s2 /\ d1 = d2.
Proof.
  intros H1 H2. revert s2. induction s1 as [|c s1 IH]; intros [|c2 s2] Heq.
  - change (String "-" d1 = String "-" d2) in Heq. injection Heq as ->. now split.
  - change (String "-" d1 = String c2 (s2 ++ String "-" d2)) in Heq.
    injection Heq as <- Heq.
    exfalso. rewrite Heq in H1. now apply noDash_append_dash in H1.
  - change (String c (s1 ++ String "-" d1) = String "-" d2) in Heq.
    injection Heq as -> Heq.
    exfalso. rewrite <- Heq in H2. now apply noDash_append_dash in H2.
  - rewrite !append_cons in Heq. injection Heq as -> Heq.
    destruct (IH _ Heq) as [-> ->]. now split.
Qed.

Lemma split_at_last_dash (s1 s2 d1 d2 : string) :
  noDash d1 -> noDash d2 ->
  s1 ++ "-" ++ d1 = s2 ++ "-" ++ d2 -> s1 = s2 /\ d1 = d2.
Proof. exact (split_at_dash s1 s2 d1 d2). Qed.

Lemma noDash_uint (d : Decimal.uint) : noDash (NilEmpty.string_of_uint d).
Proof. induction d; simpl; (exact I || (split; [discriminate|assumption])). Qed.

Lemma noDash_numberToString (z : Z) : (0 <= z)%Z -> noDash (numberToString z).
Proof.
  intros Hz. unfold numberToString.
  destruct z as [|p|p]; [simpl; split; [discriminate|exact I]| |lia].
  unfold Z.to_int, NilZero.string_of_int, NilZero.string_of_uint.
  destruct (Pos.to_uint p); try apply noDash_uint.
  simpl. split; [discriminate|exact I].
Qed.

Lemma norm_not_nil (d : Decimal.int) :
  Decimal.norm d <> Decimal.Pos Decimal.Nil /\ Decimal.norm d <> Decimal.Neg Decimal.Nil.
Proof.
  destruct d as [d|d]; unfold Decimal.norm, Decimal.unorm;
    destruct (Decimal.nzhead d); split; discriminate.
Qed.

Lemma numberToString_inj (z1 z2 : Z) :
  numberToString z1 = numberToString z2 -> z1 = z2.
Proof.
  unfold numberToString. intros H.
  apply DecimalZ.to_int_inj.
  assert (Hn : forall z, Z.to_int z = Decimal.norm (Z.to_int z)).
  { intros z. rewrite <- DecimalZ.to_of, DecimalZ.of_to. reflexivity. }
  assert (Hp : forall z, NilZero.int_of_string (NilZero.string_of_int (Z.to_int z))
                         = Some (Z.to_int z)).
  { intros z. apply NilZero.isi; rewrite Hn; apply norm_not_nil. }
  pose proof (Hp z1) as P1. rewrite H, Hp in P1. now injection P1.
Qed.

(** For files with non-negative modification time and size the
    coordinator's key identifies the file: equal keys mean equal name,
    modification time and size. *)
Theorem fileIdOf_injective (f1 f2 : File) :
  (0 <= lastModified f1)%Z -> (0 <= lastModified f2)%Z ->
  (0 <= size f1)%Z -> (0 <= size f2)%Z ->
  fileIdOf f1 = fileIdOf f2 -> f1 = f2.
Proof.
  intros Hl1 Hl2 Hs1 Hs2. unfold fileIdOf. intros Heq.
  rewrite <- !(append_assoc (name _) "-" _) in Heq.
  rewrite <- !(append_assoc _ (numberToString (lastModified _)) _) in Heq.
  apply split_at_last_dash in Heq as [Heq Hsz];
    try now apply noDash_numberToString.
  rewrite !append_assoc in Heq.
  apply split_at_last_dash in Heq as [Hname Hlm];
    try now apply noDash_numberToString.
  apply numberToString_inj in Hsz, Hlm.
  destruct f1, f2; simpl in *; congruence.
Qed.

Lemma fileIdOf_injective_witness : clipFile = smallClip.
Proof.
  apply fileIdOf_injective; try (simpl; lia). reflexivity.
Defined.

(** Two clips get the same id only if their files agree on name and
    modification time (taken non-negative). *)
Theorem clip_id_injective (f1 f2 : File) (v1 v2 : option VideoElement)
    (t1 t2 : result string) (m1 m2 : ClipMetadata) :
  (0 <= lastModified f1)%Z -> (0 <= lastModified f2)%Z ->
  getClipMetadata f1 v1 t1 = Ok m1 ->
  getClipMetadata f2 v2 t2 = Ok m2 ->
  id m1 = id m2 ->
  name f1 = name f2 /\ lastModified f1 = lastModified f2.
Proof.
  intros Hl1 Hl2 H1 H2. unfold getClipMetadata in *.
  destruct v1 as [v1|]; [|discriminate]. destruct v2 as [v2|]; [|discriminate].
  destruct t1 as [t1|]; [|discriminate]. destruct t2 as [t2|]; [|discriminate].
  simpl in H1, H2. injection H1 as <-. injection H2 as <-. simpl.
  intros Heq.
  apply split_at_last_dash in Heq as [Hname Hlm];
    try now apply noDash_numberToString.
  apply numberToString_inj in Hlm. now split.
Qed.

Lemma clip_id_injective_witness :
  name smallClip = name largeClip /\ lastModified smallClip = lastModified largeClip.
Proof.
  apply (clip_id_injective smallClip largeClip (Some someVideo) (Some someVideo)
           (Ok "thumb") (Ok "thumb")
           {| id := "clip.mp4-1700000000000"; file := smallClip; clipName := "clip.mp4";
              clipSize := 1000; clipDuration := 12;
              resolution := {| resWidth := 1920; resHeight := 1080 |};
              thumbnail := "thumb" |}
           {| id := "clip.mp4-1700000000000"; file := largeClip; clipName := "clip.mp4";
              clipSize := 2000; clipDuration := 12;
              resolution := {| resWidth := 1920; resHeight := 1080 |};
              thumbnail := "thumb" |}).
  - simpl. lia.
  - simpl. lia.
  - vm_compute. reflexivity.
  - vm_compute. reflexivity.
  - reflexivity.
Defined.

End Keys.

(** ** Sample times of a clip *)

Section SampleTimes.
Import FrameSampling.

Lemma half_inside (d : Q) : (0 < d)%Q -> (0 < d / 2)%Q /\ (d / 2 < d)%Q.
Proof.
  intros Hd. split.
  - apply Qlt_shift_div_l; lra.
  - apply Qlt_shift_div_r; lra.
Qed.

Lemma kept_time_inside (d t : Q) :
  negb (Qle_bool t (1 # 10)) && negb (Qle_bool (d - (1 # 10)) t) = true ->
  (0 < t)%Q /\ (t < d)%Q.
Proof.
  intros H. apply andb_prop in H as [H1 H2].
  apply negb_true_iff in H1, H2.
  assert (Ht : ~ (t <= 1 # 10)%Q) by (rewrite <- Qle_bool_iff; congruence).
  assert (Hd : ~ (d - (1 # 10) <= t)%Q) by (rewrite <- Qle_bool_iff; congruence).
  apply Qnot_le_lt in Ht, Hd. split; lra.
Qed.

(** A clip of positive duration is sampled at least once, and every sample
    time lies strictly inside the clip. *)
Theorem frameTimes_inside_clip (duration : Q) :
  (0 < duration)%Q ->
  frameTimesOf duration <> []
  /\ forall t, In t (frameTimesOf duration) -> (0 < t)%Q /\ (t < duration)%Q.
Proof.
  intros Hd. unfold frameTimesOf.
  set (keep := fun t => negb (Qle_bool t (1 # 10))
                        && negb (Qle_bool (duration - (1 # 10)) t)).
  assert (Hkeep : forall t, In t (List.filter keep
                     [(2 # 10) * duration; (5 # 10) * duration; (8 # 10) * duration]%Q) ->
                   (0 < t)%Q /\ (t < duration)%Q).
  { intros t Hin. apply filter_In in Hin as [_ Hk]. now apply kept_time_inside. }
  destruct (List.filter keep _) as [|t0 ts] eqn:E; simpl.
  - split; [discriminate|]. intros t [<-|[]].
    unfold Math_min. destruct (Qle_bool (2 # 10) (duration / 2)) eqn:Em.
    + apply Qle_bool_iff in Em. destruct (half_inside duration Hd) as [_ Hh].
      split; lra.
    + now apply half_inside.
  - split; [discriminate|]. exact Hkeep.
Qed.

Lemma frameTimes_inside_clip_witness :
  frameTimesOf 1 <> []
  /\ forall t, In t (frameTimesOf 1) -> (0 < t)%Q /\ (t < 1)%Q.
Proof.
  apply frameTimes_inside_clip. reflexivity.
Defined.

(** A clip of at most a fifth of a second is sampled once, at its
    midpoint. *)
Theorem short_clip_sampled_at_midpoint (duration : Q) :
  (duration <= 1 # 5)%Q ->
  frameTimesOf duration = [(duration / 2)%Q].
Proof.
  intros Hd. unfold frameTimesOf. cbn [List.filter].
  assert (H2 : Qle_bool ((2 # 10) * duration) (1 # 10) = true)
    by (apply Qle_bool_iff; lra).
  assert (H5 : Qle_bool ((5 # 10) * duration) (1 # 10) = true)
    by (apply Qle_bool_iff; lra).
  assert (H8 : Qle_bool (duration - (1 # 10)) ((8 # 10) * duration) = true)
    by (apply Qle_bool_iff; lra).
  rewrite H2, H5, H8, andb_false_r. simpl.
  unfold Math_min.
  destruct (Qle_bool (2 # 10) (duration / 2)) eqn:Em; [|reflexivity].
  apply Qle_bool_iff in Em.
  assert (Hh : (duration / 2 <= 1 # 10)%Q) by (apply Qle_shift_div_r; lra).
  lra.
Qed.

Lemma short_clip_sampled_at_midpoint_witness :
  frameTimesOf (1 # 10) = [((1 # 10) / 2)%Q].
Proof.
  apply short_clip_sampled_at_midpoint. unfold Qle. simpl. lia.
Defined.

End SampleTimes.

(** ** Index lookups of the callers *)

Section IndexLookups.
Import JsNumber GeminiService VideoUtils App VideoExport.

Lemma arrayGet_integer {A} (array : list A) (q : Q) (i : nat) :
  (q == inject_Z (Z.of_nat i))%Q -> arrayGet array (Fin q) = array !! i.
Proof.
  intros Hq. unfold arrayGet.
  assert (Hf : Qfloor q = Z.of_nat i) by (rewrite Hq; apply Qfloor_Z).
  rewrite Hf.
  assert (H1 : Qeq_bool q (inject_Z (Z.of_nat i)) = true) by now apply Qeq_bool_iff.
  assert (H2 : Qle_bool 0 q = true).
  { apply Qle_bool_iff. rewrite Hq. replace 0%Q with (inject_Z 0) by reflexivity.
    rewrite <- Zle_Qle. lia. }
  now rewrite H1, H2, Nat2Z.id.
Qed.

(** When the first entry of the response survives and its [clipIndex] is an
    integer [z], the thumbnail of the generated video is that of the
    selected clip number [|z| mod N]. *)
Theorem thumbnail_of_first_decision (selected : list ClipMetadata)
    (item : json) (rest : list json) (z : Z) (d : EditDecision) :
  selected <> [] ->
  prop item "clipIndex" = Some (JNumber (Fin (inject_Z z))) ->
  repairItem (length selected) item = Some d ->
  exists clip,
    selected !! Z.to_nat (Z.abs z mod Z.of_nat (length selected)) = Some clip
    /\ generateThumbnail (Some (JArray (item :: rest))) selected = Ok (thumbnail clip).
Proof.
  intros Hne Hci Hrep.
  destruct selected as [|c0 cs]; [congruence|].
  set (selected := c0 :: cs) in *.
  assert (Hn : (0 < length selected)%nat) by (simpl; lia).
  set (n := length selected) in *.
  pose proof Hrep as Hrep'.
  apply repairItem_Some in Hrep' as (ci & Hci' & _ & _ & _ & Hidx).
  rewrite Hci in Hci'. injection Hci' as <-.
  destruct (rem_abs_integer z n Hn) as (r & Hr & Heq).
  rewrite Hr in Hidx.
  pose proof (Z.mod_pos_bound (Z.abs z) (Z.of_nat n) ltac:(lia)) as Hm.
  set (m := (Z.abs z mod Z.of_nat n)%Z) in *.
  assert (Hq : (r == inject_Z (Z.of_nat (Z.to_nat m)))%Q)
    by (rewrite Z2Nat.id; [exact Heq|lia]).
  destruct (lookup_lt_is_Some_2 selected (Z.to_nat m)) as [clip Hclip]; [fold n; lia|].
  exists clip. split; [exact Hclip|].
  assert (H1 : le zero (Fin r) = true).
  { simpl. apply Qle_bool_iff. rewrite Heq. replace 0%Q with (inject_Z 0) by reflexivity.
    rewrite <- Zle_Qle. lia. }
  assert (H2 : lt (Fin r) (of_nat n) = true).
  { simpl. destruct (Qle_bool (inject_Z (Z.of_nat n)) r) eqn:E; [|reflexivity].
    apply Qle_bool_iff in E. rewrite Heq in E. rewrite <- Zle_Qle in E. lia. }
  unfold generateThumbnail, createVideoSequence, tryBody. fold n.
  cbn [bind toArray mapFilter]. rewrite Hrep.
  cbn [length Nat.eqb bind].
  unfold chooseThumbnail, selected at 1. fold selected. fold n.
  cbn [clipIndex]. rewrite Hidx, H1, H2. cbn [andb].
  rewrite (arrayGet_integer selected r (Z.to_nat m) Hq), Hclip. reflexivity.
Qed.


End IndexLookups.

(** ** The export: unique files and stream indices *)

Section ExportInputs.
Import JsNumber GeminiService VideoExport.

Lemma mapSet_keys {V} (k : string) (v : V) (m : list (string * V)) :
  In k (map fst m) -> map fst (mapSet k v m) = map fst m.
Proof.
  induction m as [|[k' v'] m IH]; simpl; [tauto|].
  destruct (String.eqb_spec k k') as [->|Hne]; [reflexivity|].
  intros [Heq|Hin]; [congruence|]. simpl. now rewrite IH.
Qed.

Lemma mapSet_fresh {V} (k : string) (v : V) (m : list (string * V)) :
  ~ In k (map fst m) -> mapSet k v m = (m ++ [(k, v)])%list.
Proof.
  induction m as [|[k' v'] m IH]; simpl; [reflexivity|].
  intros Hn. destruct (String.eqb_spec k k') as [->|Hne]; [tauto|].
  rewrite IH; [reflexivity|tauto].
Qed.

Lemma mapSet_NoDup {V} (k : string) (v : V) (m : list (string * V)) :
  NoDup (map fst m) -> NoDup (map fst (mapSet k v m)).
Proof.
  intros Hnd. destruct (in_dec string_dec k (map fst m)) as [Hin|Hn].
  - now rewrite mapSet_keys.
  - rewrite mapSet_fresh by exact Hn. rewrite map_app. simpl.
    apply NoDup_app. repeat split; [exact Hnd| |apply NoDup_singleton].
    intros x Hx Hx'. apply list_elem_of_singleton in Hx' as ->.
    apply Hn. now apply list_elem_of_In.
Qed.

Lemma mapSet_has_key {V} (k : string) (v : V) (m : list (string * V)) k' :
  In k' (map fst (mapSet k v m)) <-> k' = k \/ In k' (map fst m).
Proof.
  destruct (in_dec string_dec k (map fst m)) as [Hin|Hn].
  - rewrite mapSet_keys by exact Hin. split; [tauto|]. intros [->|H]; assumption.
  - rewrite mapSet_fresh by exact Hn. rewrite map_app, in_app_iff. simpl.
    split; [intros [H|[H|[]]]; auto|intros [->|H]; auto].
Qed.

Lemma mapSet_entries {V} (P : string * V -> Prop) (k : string) (v : V)
    (m : list (string * V)) :
  P (k, v) -> Forall P m -> Forall P (mapSet k v m).
Proof.
  intros Hkv. induction 1 as [|[k' v'] m Hx Hm IH]; simpl.
  - now repeat constructor.
  - destruct (String.eqb k k'); constructor; auto.
Qed.

Lemma mapFromEntries_props {V} (P : string * V -> Prop) (entries : list (string * V)) :
  Forall P entries ->
  forall acc,
    NoDup (map fst acc) -> Forall P acc ->
    NoDup (map fst (fold_left (fun m kv => mapSet (fst kv) (snd kv) m) entries acc))
    /\ Forall P (fold_left (fun m kv => mapSet (fst kv) (snd kv) m) entries acc)
    /\ forall k, In k (map fst (fold_left (fun m kv => mapSet (fst kv) (snd kv) m) entries acc))
                 <-> In k (map fst entries) \/ In k (map fst acc).
Proof.
  induction 1 as [|[k v] entries Hkv He IH]; intros acc Hnd Hacc.
  - simpl. repeat split; auto; tauto.
  - cbn [fold_left fst snd].
    destruct (IH (mapSet k v acc)) as (H1 & H2 & H3).
    + now apply mapSet_NoDup.
    + now apply mapSet_entries.
    + repeat split; [exact H1|exact H2| |].
      * intros Hk. apply H3 in Hk as [Hk|Hk]; [left; now right|].
        apply mapSet_has_key in Hk as [->|Hk]; [left; now left|now right].
      * intros [[<-|Hk]|Hk]; apply H3.
        -- right. apply mapSet_has_key. now left.
        -- now left.
        -- right. apply mapSet_has_key. now right.
Qed.

Lemma mapFromEntries_distinct {V} (entries : list (string * V)) :
  NoDup (map fst entries) -> mapFromEntries entries = entries.
Proof.
  unfold mapFromEntries.
  assert (H : forall acc,
             NoDup (map fst (acc ++ entries)) ->
             fold_left (fun m kv => mapSet (fst kv) (snd kv) m) entries acc
             = (acc ++ entries)%list).
  { induction entries as [|[k v] entries IH]; intros acc Hnd; simpl.
    - now rewrite app_nil_r.
    - rewrite mapSet_fresh.
      + rewrite IH; rewrite <- app_assoc; [reflexivity|exact Hnd].
      + rewrite map_app in Hnd. apply NoDup_app in Hnd as (_ & Hd & _).
        intros Hin. apply (Hd k); [now apply list_elem_of_In|]. simpl. left. }
  intros Hnd. now apply (H []).
Qed.

Lemma mapGet_lookup {V} (m : list (string * V)) : forall j k v,
  NoDup (map fst m) -> m !! j = Some (k, v) -> mapGet k m = Some v.
Proof.
  induction m as [|[k' v'] m IH]; intros j k v Hnd Hj; [discriminate|].
  simpl. apply NoDup_cons in Hnd as [Hk' Hnd].
  destruct j as [|j]; simpl in Hj.
  - injection Hj as -> ->. now rewrite String.eqb_refl.
  - destruct (String.eqb_spec k k') as [->|Hne].
    + exfalso. apply Hk'. apply list_elem_of_In.
      apply in_map_iff. exists (k', v). split; [reflexivity|].
      apply list_elem_of_In. eapply list_elem_of_lookup_2. exact Hj.
    + eapply IH; eauto.
Qed.

Lemma unique_entries (videoFiles : list File) :
  let m := mapFromEntries (map (fun item => (name item, item)) videoFiles) in
  NoDup (map fst m)
  /\ Forall (fun kv => fst kv = name (snd kv) /\ In (snd kv) videoFiles) m
  /\ forall k, In k (map fst m) <-> In k (map name videoFiles).
Proof.
  intros m.
  destruct (mapFromEntries_props
              (fun kv => fst kv = name (snd kv) /\ In (snd kv) videoFiles)
              (map (fun item => (name item, item)) videoFiles)) with (acc := @nil (string * File))
    as (H1 & H2 & H3).
  - apply List.Forall_forall. intros [k v] Hin.
    apply in_map_iff in Hin as (f & [= <- <-] & Hf). now split.
  - constructor.
  - constructor.
  - repeat split; [exact H1|exact H2| |].
    + intros Hk. apply H3 in Hk as [Hk|[]]. now rewrite map_map in Hk.
    + intros Hk. apply H3. left. now rewrite map_map.
Qed.

Lemma unique_names (videoFiles : list File) :
  map name (uniqueVideoFilesOf videoFiles)
  = map fst (mapFromEntries (map (fun item => (name item, item)) videoFiles)).
Proof.
  unfold uniqueVideoFilesOf.
  destruct (unique_entries videoFiles) as (_ & H & _).
  induction H as [|[k v] m [Hk _] Hm IH]; simpl; [reflexivity|].
  simpl in Hk. now rewrite IH, Hk.
Qed.

(** The files written for the export carry pairwise distinct names, exactly
    the names of the submitted files, and each is one of the submitted
    files. *)
Theorem unique_video_files (videoFiles : list File) :
  NoDup (map name (uniqueVideoFilesOf videoFiles))
  /\ (forall k, In k (map name (uniqueVideoFilesOf videoFiles))
                <-> In k (map name videoFiles))
  /\ (forall g, In g (uniqueVideoFilesOf videoFiles) -> In g videoFiles).
Proof.
  destruct (unique_entries videoFiles) as (H1 & H2 & H3).
  rewrite unique_names. repeat split; try exact H1; try apply H3.
  intros g Hg. unfold uniqueVideoFilesOf in Hg.
  apply in_map_iff in Hg as ([k v] & <- & Hin).
  rewrite List.Forall_forall in H2. now apply (H2 (k, v)).
Qed.

Lemma index_entries (files : list File) : forall j g,
  files !! j = Some g ->
  imap (fun index file => (name file, index)) files !! j = Some (name g, j).
Proof.
  intros j g Hj. now rewrite list_lookup_imap, Hj.
Qed.

Lemma index_entries_keys (files : list File) :
  map fst (imap (fun index file => (name file, index)) files) = map name files.
Proof.
  assert (H : forall (f : nat -> nat),
             map fst (imap (fun index file => (name file, f index)) files)
             = map name files).
  { induction files as [|x xs IH]; intros f; [reflexivity|].
    simpl. f_equal. apply (IH (f ∘ S)). }
  apply (H (fun i => i)).
Qed.

Lemma inputs_lookup (audioFile : File) (files : list File) : forall j g,
  files !! j = Some g ->
  inputsOf audioFile files !! (2 * (j + 1) + 1)%nat = Some (name g).
Proof.
  unfold inputsOf. intros j g Hj.
  replace (2 * (j + 1) + 1)%nat with (2 + (2 * j + 1))%nat by lia.
  change (flat_map (fun file => ["-i"; name file]) files !! (2 * j + 1)%nat
          = Some (name g)).
  revert j Hj. induction files as [|x xs IH]; intros j Hj; [discriminate|].
  destruct j as [|j]; simpl in Hj.
  - injection Hj as ->. reflexivity.
  - replace (2 * S j + 1)%nat with (2 + (2 * j + 1))%nat by lia.
    simpl. now apply IH.
Qed.

(** For a decision whose index is a position of the submitted files, the
    stream index is in range and names the right input: the command's input
    of that number is a file with the name of the decision's clip. *)
Theorem stream_index_names_clip (audioFile : File) (videoFiles : list File)
    (decision : EditDecision) (q : Q) (i : nat) (f : File) :
  clipIndex decision = Fin q ->
  (q == inject_Z (Z.of_nat i))%Q ->
  videoFiles !! i = Some f ->
  exists j g,
    videoStreamIndexOf videoFiles decision = Ok (Some (j + 1)%nat)
    /\ uniqueVideoFilesOf videoFiles !! j = Some g
    /\ name g = name f
    /\ inputsOf audioFile (uniqueVideoFilesOf videoFiles) !! (2 * (j + 1) + 1)%nat
       = Some (name f).
Proof.
  intros Hci Hq Hf.
  destruct (unique_video_files videoFiles) as (Hnd & Hnames & _).
  assert (Hin : In (name f) (map name (uniqueVideoFilesOf videoFiles))).
  { apply Hnames. apply in_map. apply list_elem_of_In.
    eapply list_elem_of_lookup_2. exact Hf. }
  apply in_map_iff in Hin as (g & Hg & Hgin).
  apply list_elem_of_In, list_elem_of_lookup_1 in Hgin as [j Hj].
  exists j, g. repeat split; [|exact Hj|exact Hg|].
  - unfold videoStreamIndexOf. rewrite Hci, (arrayGet_integer _ _ _ Hq), Hf.
    unfold fileNameToIndexMapOf.
    rewrite mapFromEntries_distinct by (rewrite index_entries_keys; exact Hnd).
    rewrite (mapGet_lookup _ j (name f) j).
    + reflexivity.
    + rewrite index_entries_keys. exact Hnd.
    + rewrite <- Hg. now apply index_entries.
  - rewrite <- Hg. now apply inputs_lookup.
Qed.

End ExportInputs.

(** ** Further witnesses and the finite case of the repair *)

Section FurtherWitnesses.
Import JsNumber GeminiService VideoAnalysisService VideoUtils App VideoExport.

(** For a finite [clipIndex] and a non-empty clip set the repaired index
    satisfies [0 <= clipIndex < N]. *)
Theorem finite_index_repaired_in_range (n : nat) (item : json) (q : Q) (d : EditDecision) :
  (0 < n)%nat ->
  prop item "clipIndex" = Some (JNumber (Fin q)) ->
  repairItem n item = Some d ->
  inRange n (clipIndex d) = true.
Proof.
  intros Hn Hci Hrep.
  apply repairItem_Some in Hrep as (ci & Hci' & _ & _ & _ & ->).
  rewrite Hci in Hci'. injection Hci' as <-.
  destruct (rem_abs_finite_bounds q n Hn) as (r & -> & H0 & H1).
  unfold inRange, le, lt, zero, of_nat.
  apply andb_true_intro. split.
  - now apply Qle_bool_iff.
  - destruct (Qle_bool (inject_Z (Z.of_nat n)) r) eqn:E; [|reflexivity].
    apply Qle_bool_iff in E. exfalso. revert H1. now apply Qle_not_lt.
Qed.

Lemma finite_index_repaired_in_range_witness :
  inRange 3 (clipIndex {| clipIndex := Fin (1 # 2); duration := Fin 1;
                          description := "cut" |}) = true.
Proof.
  apply (finite_index_repaired_in_range 3 (rawEntry (Fin (-7 # 2)) (Fin 1) "cut") (-7 # 2)).
  - lia.
  - reflexivity.
  - vm_compute. reflexivity.
Defined.

Lemma applySobel_fraction_witness :
  (0 <= applySobel (fun r _ _ => r) edgeFrame)%Q
  /\ (applySobel (fun r _ _ => r) edgeFrame <= 1)%Q.
Proof.
  apply applySobel_fraction. simpl. lia.
Defined.

Lemma thumbnail_of_first_decision_witness :
  exists clip,
    twoClips !! Z.to_nat (Z.abs (-5) mod Z.of_nat (length twoClips)) = Some clip
    /\ generateThumbnail
         (Some (JArray [rawEntry (Fin (inject_Z (-5))) (Fin 1) "cut"])) twoClips
       = Ok (thumbnail clip).
Proof.
  apply (thumbnail_of_first_decision twoClips
           (rawEntry (Fin (inject_Z (-5))) (Fin 1) "cut") [] (-5)
           {| clipIndex := Fin 1; duration := Fin 1; description := "cut" |}).
  - discriminate.
  - reflexivity.
  - vm_compute. reflexivity.
Defined.


Lemma stream_index_names_clip_witness :
  exists j g,
    videoStreamIndexOf submittedFiles
      {| clipIndex := Fin 2; duration := Fin 1; description := "cut" |}
    = Ok (Some (j + 1)%nat)
    /\ uniqueVideoFilesOf submittedFiles !! j = Some g
    /\ name g = name (namedFile "a.mp4" 3)
    /\ inputsOf (namedFile "song.mp3" 9) (uniqueVideoFilesOf submittedFiles)
         !! (2 * (j + 1) + 1)%nat
       = Some (name (namedFile "a.mp4" 3)).
Proof.
  apply (stream_index_names_clip (namedFile "song.mp3" 9) submittedFiles _ 2%Q 2%nat).
  - reflexivity.
  - reflexivity.
  - reflexivity.
Defined.

End FurtherWitnesses.
